(** * Motif scoring: position-specific scoring matrices (scoring.py)

    A shallow embedding of [scoring.py] and the properties of its matrix
    builders and scorers.

    Modelling choices.
    - A Python [dict] is an insertion-ordered association list with string
      keys ([Dict.t]); [d[k]] raises [KeyError] on a missing key and
      [d[k] = v] overwrites in place or appends.
    - A Python [list] is a [list]; [l[i]] and [l[i] = v] raise [IndexError]
      out of range (only non-negative indices occur: they come from [range]).
    - A Python [str] is a [string]; [s[i]] is the one-character string.
    - Exceptions are an explicit error type, threaded by a small error monad.
    - Python [int] is [Z].  Python [float] is idealised as an exact number:
      the canonical rationals [Qc] for the frequency arithmetic, the reals
      [R] where the natural logarithm is taken.  Where rounding or underflow
      decides what the program returns, module [Binary64] reads [float] as
      IEEE binary64 (the kernel's primitive floats); the scorers are generic
      in the number type and serve both readings. *)

From Stdlib Require Import List String Ascii ZArith QArith Qcanon Reals.
From Stdlib Require Import Lia Lra Bool Permutation.
From Stdlib Require PrimFloat Uint63.
Import ListNotations.

Close Scope Qc_scope.
Close Scope Q_scope.
Close Scope R_scope.
Open Scope string_scope.
Open Scope list_scope.
Open Scope nat_scope.

(* ================================================================= *)
(** ** Exceptions and the error monad *)

Inductive exn : Type :=
| AssertionError
| IndexError
| KeyError
| ZeroDivisionError
| ValueError.

(** Python's [LookupError] is the common base class of [IndexError] and
    [KeyError]. *)
Definition LookupError (e : exn) : bool :=
  match e with
  | IndexError | KeyError => true
  | _ => false
  end.

Inductive result (A : Type) : Type :=
| Ok (a : A)
| Raise (e : exn).

Arguments Ok {A} a.
Arguments Raise {A} e.

Definition bind {A B : Type} (c : result A) (k : A -> result B) : result B :=
  match c with
  | Ok a => k a
  | Raise e => Raise e
  end.

Notation "x <- c ;; k" := (bind c (fun x => k))
  (at level 61, c at next level, right associativity).
Notation "' pat <- c ;; k" := (bind c (fun x => match x with pat => k end))
  (at level 61, pat pattern, c at next level, right associativity).

(** [for x in xs: body] with the loop-carried state [s]. *)
Fixpoint for_each {S X : Type} (xs : list X) (s : S)
         (body : S -> X -> result S) : result S :=
  match xs with
  | [] => Ok s
  | x :: xs' => s' <- body s x ;; for_each xs' s' body
  end.

(** A list comprehension [[f x for x in xs]] whose element may raise. *)
Fixpoint mapM {X Y : Type} (f : X -> result Y) (xs : list X) : result (list Y) :=
  match xs with
  | [] => Ok []
  | x :: xs' => y <- f x ;; ys <- mapM f xs' ;; Ok (y :: ys)
  end.

(** [any(p x for x in xs)]: stops at the first true element. *)
Fixpoint anyM {X : Type} (p : X -> result bool) (xs : list X) : result bool :=
  match xs with
  | [] => Ok false
  | x :: xs' => b <- p x ;; if b then Ok true else anyM p xs'
  end.

(** [range(n)] *)
Definition range (n : nat) : list nat := seq 0 n.

(* ================================================================= *)
(** ** Lists and strings indexed by position *)

(** [l[i]] *)
Definition list_get {A : Type} (l : list A) (i : nat) : result A :=
  match nth_error l i with
  | Some a => Ok a
  | None => Raise IndexError
  end.

Fixpoint replace_nth {A : Type} (l : list A) (i : nat) (v : A) : list A :=
  match l, i with
  | [], _ => []
  | _ :: l', O => v :: l'
  | a :: l', S i' => a :: replace_nth l' i' v
  end.

(** [l[i] = v] *)
Definition list_set {A : Type} (l : list A) (i : nat) (v : A) : result (list A) :=
  if i <? List.length l then Ok (replace_nth l i v) else Raise IndexError.

(** [s[i]]: the one-character string at position [i]. *)
Definition str_get (s : string) (i : nat) : result string :=
  match String.get i s with
  | Some c => Ok (String c EmptyString)
  | None => Raise IndexError
  end.

(* ================================================================= *)
(** ** Dictionaries *)

Module Dict.

Definition t (V : Type) : Type := list (string * V).

Definition empty {V : Type} : t V := [].

(** [d[k]] *)
Fixpoint get {V : Type} (d : t V) (k : string) : result V :=
  match d with
  | [] => Raise KeyError
  | (k', v) :: d' => if String.eqb k k' then Ok v else get d' k
  end.

(** [d[k] = v] *)
Fixpoint set {V : Type} (d : t V) (k : string) (v : V) : t V :=
  match d with
  | [] => [(k, v)]
  | (k', v') :: d' =>
      if String.eqb k k' then (k', v) :: d' else (k', v') :: set d' k v
  end.

Definition keys {V : Type} (d : t V) : list string := map fst d.
Definition values {V : Type} (d : t V) : list V := map snd d.
Definition items {V : Type} (d : t V) : list (string * V) := d.

(** [{k: f k for k in ks}] *)
Definition comprehension {V : Type} (f : string -> V) (ks : list string) : t V :=
  fold_left (fun d k => set d k (f k)) ks empty.

(** Two dictionaries are equal (Python's [==]) when they bind the same
    keys to the same values, whatever the insertion order. *)
Definition eq {V : Type} (d1 d2 : t V) : Prop :=
  forall k, get d1 k = get d2 k.

End Dict.

(** A matrix is a dictionary of rows. [m[base][i]] and [m[base][i] = v]: *)
Definition getitem2 {V : Type} (m : Dict.t (list V)) (base : string) (i : nat)
  : result V :=
  row <- Dict.get m base ;; list_get row i.

Definition setitem2 {V : Type} (m : Dict.t (list V)) (base : string) (i : nat)
           (v : V) : result (Dict.t (list V)) :=
  row <- Dict.get m base ;;
  row' <- list_set row i v ;;
  Ok (Dict.set m base row').

(* ================================================================= *)
(** ** Numbers *)

(** The arithmetic the scorers use; they are applied to frequency matrices
    (rationals) and to log matrices (reals) alike. *)
Class Number (T : Type) : Type := {
  num_zero : T;
  num_one : T;
  num_add : T -> T -> T;
  num_mul : T -> T -> T
}.

#[export] Instance Number_Qc : Number Qc :=
  {| num_zero := 0%Qc; num_one := 1%Qc; num_add := Qcplus; num_mul := Qcmult |}.

#[export] Instance Number_R : Number R :=
  {| num_zero := 0%R; num_one := 1%R; num_add := Rplus; num_mul := Rmult |}.

(** An [int] used in float arithmetic. *)
Definition Qc_of_Z (z : Z) : Qc := Q2Qc (inject_Z z).

(** A float literal. *)
Definition flt (q : Q) : Qc := Q2Qc q.

(** [a / b] on two ints (true division). *)
Definition int_truediv (a b : Z) : result Qc :=
  if (b =? 0)%Z then Raise ZeroDivisionError
  else Ok (Qc_of_Z a / Qc_of_Z b)%Qc.

(** [x / n] with a float numerator and an int denominator. *)
Definition float_div_int (x : Qc) (n : Z) : result Qc :=
  if (n =? 0)%Z then Raise ZeroDivisionError
  else Ok (x / Qc_of_Z n)%Qc.

(** [math.log] raises [ValueError] outside its domain. *)
Definition math_log (x : R) : result R :=
  if Rlt_dec 0 x then Ok (ln x) else Raise ValueError.

(* ================================================================= *)
(** ** scoring.py *)

Definition BASES : list string := ["A"; "T"; "C"; "G"].

Definition instances_to_count_matrix (instances : list string)
  : result (Dict.t (list Z)) :=
  mismatch <- anyM (fun i => first <- list_get instances 0 ;;
                             Ok (negb (String.length first =? String.length i)%nat))
                   instances ;;
  if mismatch then Raise AssertionError else
  first <- list_get instances 0 ;;
  let motif_length := String.length first in
  let count_matrix := Dict.comprehension (fun _ => repeat 0%Z motif_length) BASES in
  for_each instances count_matrix (fun count_matrix instance =>
    for_each (range (String.length instance)) count_matrix (fun count_matrix i =>
      base <- str_get instance i ;;
      n <- getitem2 count_matrix base i ;;
      setitem2 count_matrix base i (n + 1)%Z)).

Definition count_to_frequency_matrix (count_matrix : Dict.t (list Z))
  : result (Dict.t (list Qc)) :=
  instance_count <-
    for_each BASES 0%Z (fun acc base =>
      n <- getitem2 count_matrix base 0 ;; Ok (acc + n)%Z) ;;
  for_each (Dict.items count_matrix) Dict.empty
    (fun frequency_matrix '(base, occurances) =>
      row <- mapM (fun occurance => int_truediv occurance instance_count)
                  occurances ;;
      Ok (Dict.set frequency_matrix base row)).

Section Scorers.
Context {T : Type} `{Number T}.

Definition score_sum (string : string) (scoring_matrix : Dict.t (list T))
  : result T :=
  for_each (range (String.length string)) num_one (fun score i =>
    base <- str_get string i ;;
    x <- getitem2 scoring_matrix base i ;;
    Ok (num_add score x)).

Definition score_pssm (string : string) (scoring_matrix : Dict.t (list T))
  : result T :=
  for_each (range (String.length string)) num_one (fun score i =>
    base <- str_get string i ;;
    x <- getitem2 scoring_matrix base i ;;
    Ok (num_mul score x)).

Definition score_pssm_log (string : string) (log_matrix : Dict.t (list T))
  : result T :=
  for_each (range (String.length string)) num_zero (fun score i =>
    base <- str_get string i ;;
    x <- getitem2 log_matrix base i ;;
    Ok (num_add score x)).
End Scorers.

(** The per-position quantities of [add_pseudo_counts], named as its local
    variables. *)
Definition zero_count (position_frequencies : list Qc) : Z :=
  fold_left Z.add
            (map (fun i => Z.b2z (Qc_eq_bool i 0)) position_frequencies) 0%Z.

Definition nonzero_count (position_frequencies : list Qc) : Z :=
  (Z.of_nat (List.length BASES) - zero_count position_frequencies)%Z.

Definition position_diff (low_frequency : Qc) (position_frequencies : list Qc)
  : result Qc :=
  float_div_int (Qc_of_Z (zero_count position_frequencies) * low_frequency)%Qc
                (nonzero_count position_frequencies).

Definition default_low_frequency : Qc := flt 0.1.

Definition add_pseudo_counts (frequency_matrix : Dict.t (list Qc))
           (low_frequency : Qc) : result (Dict.t (list Qc)) :=
  base0 <- list_get BASES 0 ;;
  row0 <- Dict.get frequency_matrix base0 ;;
  let motif_length := List.length row0 in
  let pseudo_matrix := Dict.comprehension (fun _ => repeat 0%Qc motif_length) BASES in
  for_each (range motif_length) pseudo_matrix (fun pseudo_matrix i =>
    position_frequencies <-
      mapM (fun base => getitem2 frequency_matrix base i) BASES ;;
    diff <- position_diff low_frequency position_frequencies ;;
    for_each BASES pseudo_matrix (fun pseudo_matrix base =>
      base_frequency <- getitem2 frequency_matrix base i ;;
      setitem2 pseudo_matrix base i
               (if Qc_eq_bool base_frequency 0 then low_frequency
                else (base_frequency - diff)%Qc))).

Definition freq_to_log_matrix (frequency_matrix : Dict.t (list R))
  : result (Dict.t (list R)) :=
  for_each (Dict.items frequency_matrix) Dict.empty
    (fun log_matrix '(base, occurances) =>
      row <- mapM (fun i => l <- math_log i ;; Ok (- l)%R) occurances ;;
      Ok (Dict.set log_matrix base row)).

Definition get_frequency_matrix (instances : list string)
  : result (Dict.t (list Qc)) :=
  count_matrix <- instances_to_count_matrix instances ;;
  count_to_frequency_matrix count_matrix.

Definition get_motifs_percentage (motifs : list string)
  : result (Dict.t Qc) :=
  scoring_matrix <- get_frequency_matrix motifs ;;
  for_each motifs Dict.empty (fun score_dict motif =>
    s <- score_pssm motif scoring_matrix ;;
    Ok (Dict.set score_dict motif s)).

(* ================================================================= *)
(** ** The documented examples *)

Definition example_frequency_matrix : Dict.t (list Qc) :=
  [("A", [flt 1.0; flt 0.0]); ("T", [flt 0.0; flt 0.5]);
   ("C", [flt 0.0; flt 0.5]); ("G", [flt 0.0; flt 0.0])].


(** The documented result of [add_pseudo_counts] on the example. *)
Definition example_pseudo_matrix : Dict.t (list Qc) :=
  [("A", [flt 0.7; flt 0.1]); ("T", [flt 0.1; flt 0.4]);
   ("C", [flt 0.1; flt 0.4]); ("G", [flt 0.1; flt 0.1])].

(** The same matrix over the reals. *)
Definition example_real_matrix : Dict.t (list R) :=
  [("A", [0.7; 0.1]%R); ("T", [0.1; 0.4]%R);
   ("C", [0.1; 0.4]%R); ("G", [0.1; 0.1]%R)].

(** One position, seen in ten instances: one A and nine T. *)
Definition skewed_frequency_matrix : Dict.t (list Qc) :=
  [("A", [flt 0.1]); ("T", [flt 0.9]); ("C", [flt 0.0]); ("G", [flt 0.0])].

Definition skewed_pseudo_matrix : Dict.t (list Qc) :=
  [("A", [flt 0.0]); ("T", [flt 0.8]); ("C", [flt 0.1]); ("G", [flt 0.1])].

(** A count matrix whose position 1 has no instance, and one whose position
    0 has none. *)
Definition uneven_count_matrix : Dict.t (list Z) :=
  [("A", [1; 0]%Z); ("T", [0; 0]%Z); ("C", [0; 0]%Z); ("G", [0; 0]%Z)].

Definition empty_first_count_matrix : Dict.t (list Z) :=
  [("A", [0; 1]%Z); ("T", [0; 0]%Z); ("C", [0; 0]%Z); ("G", [0; 0]%Z)].

(* ================================================================= *)
(** ** Vocabulary of the properties *)

(** [len(m[base])] *)
Definition row_length {V : Type} (m : Dict.t (list V)) (base : string)
  : result nat :=
  row <- Dict.get m base ;; Ok (List.length row).

(** The matrix has exactly the four bases as keys, in the order of [BASES],
    and rows of length [L]. *)
Definition well_shaped {V : Type} (L : nat) (m : Dict.t (list V)) : Prop :=
  Dict.keys m = BASES /\
  forall base, In base BASES -> row_length m base = Ok L.

(** [m'] has the shape of [m] and each cell of [m] increased by [f]. *)
Definition adds (f : string -> nat -> Z) (m m' : Dict.t (list Z)) : Prop :=
  Dict.keys m' = Dict.keys m /\
  (forall base, row_length m' base = row_length m base) /\
  forall base j n, getitem2 m base j = Ok n ->
                   getitem2 m' base j = Ok (n + f base j)%Z.

(** The four per-base values of the matrix at position [i]. *)
Definition column {V : Type} (m : Dict.t (list V)) (i : nat) (a t c g : V)
  : Prop :=
  getitem2 m "A" i = Ok a /\ getitem2 m "T" i = Ok t /\
  getitem2 m "C" i = Ok c /\ getitem2 m "G" i = Ok g.

(** The value [add_pseudo_counts] writes for a cell of frequency [f] at a
    position whose tax is [d]. *)
Definition pseudo (low_frequency d f : Qc) : Qc :=
  if Qc_eq_bool f 0 then low_frequency else (f - d)%Qc.

(** Position [i] of [fm] can be smoothed, with tax [d]. *)
Definition smoothable (fm : Dict.t (list Qc)) (low_frequency : Qc) (i : nat)
           (a t c g d : Qc) : Prop :=
  column fm i a t c g /\ position_diff low_frequency [a; t; c; g] = Ok d.

(** Position [i] of [pm] is position [i] of [fm], smoothed. *)
Definition pseudo_position (fm : Dict.t (list Qc)) (low_frequency : Qc)
           (pm : Dict.t (list Qc)) (i : nat) : Prop :=
  exists a t c g d,
    smoothable fm low_frequency i a t c g d /\
    column pm i (pseudo low_frequency d a) (pseudo low_frequency d t)
              (pseudo low_frequency d c) (pseudo low_frequency d g).

(** [g] applied to every cell of the matrix. *)
Definition map_cells {V W : Type} (g : V -> W) (m : Dict.t (list V))
  : Dict.t (list W) :=
  map (fun '(base, row) => (base, map g row)) m.

(** Every cell of the matrix is strictly positive. *)
Definition positive_cells (m : Dict.t (list R)) : Prop :=
  forall base i x, getitem2 m base i = Ok x -> (0 < x)%R.

(** No cell of the matrix is exactly 0. *)
Definition zero_free (m : Dict.t (list Qc)) : Prop :=
  forall base i x, getitem2 m base i = Ok x -> x <> 0%Qc.

(** A matrix over the four bases, whatever the insertion order of its keys,
    with rows of length [L]. *)
Definition is_matrix {V : Type} (L : nat) (m : Dict.t (list V)) : Prop :=
  Permutation (Dict.keys m) BASES /\
  forall base, In base BASES -> row_length m base = Ok L.

(** 1 when [instance] has [base] at position [i], else 0. *)
Definition occurs (base : string) (i : nat) (instance : string) : Z :=
  match str_get instance i with
  | Ok b => Z.b2z (String.eqb b base)
  | Raise _ => 0%Z
  end.

(** The number of instances with [base] at position [i]. *)
Definition count_at (instances : list string) (base : string) (i : nat) : Z :=
  fold_right (fun instance acc => (occurs base i instance + acc)%Z) 0%Z instances.

(** The string is written with A, T, C and G only. *)
Definition over_bases (s : string) : Prop :=
  forall i c, String.get i s = Some c -> In (String c EmptyString) BASES.

(** The body shared by the three scorers, up to the accumulating
    operation. *)
Definition scorer_body {T : Type} (op : T -> T -> T) (string : string)
           (matrix : Dict.t (list T)) (score : T) (i : nat) : result T :=
  base <- str_get string i ;;
  x <- getitem2 matrix base i ;;
  Ok (op score x).

(** The call fails with an [IndexError] or a [KeyError]. *)
Definition fails_with_lookup_error {A : Type} (r : result A) : Prop :=
  exists e, r = Raise e /\ LookupError e = true.

(** Every row of the matrix has length [L]. *)
Definition motif_length_is {V : Type} (m : Dict.t (list V)) (L : nat) : Prop :=
  forall base row, Dict.get m base = Ok row -> List.length row = L.

(** The string has a character that is not a key of the dictionary. *)
Definition has_unknown_base {V : Type} (s : string) (m : Dict.t V) : Prop :=
  exists i c, String.get i s = Some c /\
              ~ In (String c EmptyString) (Dict.keys m).

(* ================================================================= *)
(** ** scoring.py: the log pipeline and the totals *)

(** A rational frequency read as a real, where its logarithm is taken. *)
Definition Qc2R (q : Qc) : R :=
  (IZR (Qnum q) / IZR (Z.pos (Qden q)))%R.

Definition get_scoring_matrix (instances : list string)
  : result (Dict.t (list R)) :=
  frequency_matrix <- get_frequency_matrix instances ;;
  pseudo_matrix <- add_pseudo_counts frequency_matrix default_low_frequency ;;
  log_matrix <- freq_to_log_matrix (map_cells Qc2R pseudo_matrix) ;;
  Ok log_matrix.

Definition get_motifs_score (motifs : list string) : result (Dict.t R) :=
  scoring_matrix <- get_scoring_matrix motifs ;;
  for_each motifs Dict.empty (fun score_dict motif =>
    s <- score_pssm_log motif scoring_matrix ;;
    Ok (Dict.set score_dict motif s)).

(** [numpy.product] of a list of numbers: the product of its elements, 1 for
    the empty list. *)
Definition numpy_product (xs : list Qc) : Qc := fold_left Qcmult xs 1%Qc.

(** The builtin [sum] of a list of numbers. *)
Definition py_sum (xs : list R) : R := fold_left Rplus xs 0%R.

Definition get_total_motifs_percentage (motifs : list string) : result Qc :=
  score_dict <- get_motifs_percentage motifs ;;
  Ok (numpy_product (Dict.values score_dict)).

Definition get_total_motifs_score (motifs : list string) : result R :=
  score_dict <- get_motifs_score motifs ;;
  Ok (py_sum (Dict.values score_dict)).

(** The documented frequency matrix over the reals: it has zero cells. *)
Definition example_real_frequency_matrix : Dict.t (list R) :=
  [("A", [1; 0]%R); ("T", [0; 0.5]%R); ("C", [0; 0.5]%R); ("G", [0; 0]%R)].

(** Ten instances of length 1: one A and nine T. *)
Definition skewed_instances : list string :=
  ["A"; "T"; "T"; "T"; "T"; "T"; "T"; "T"; "T"; "T"].

(* ================================================================= *)
(** ** Vocabulary of the further properties *)

(** The cells a scorer reads: [matrix[string[i]][i]] for each position. *)
Definition path_cells {T : Type} (str : string) (matrix : Dict.t (list T))
  : result (list T) :=
  mapM (fun i => base <- str_get str i ;; getitem2 matrix base i)
       (range (String.length str)).

(** Every cell of the matrix is a frequency, between 0 and 1. *)
Definition unit_cells (m : Dict.t (list Qc)) : Prop :=
  forall base i x, getitem2 m base i = Ok x -> (0 <= x /\ x <= 1)%Qc.

(* ================================================================= *)
(** ** scoring.py: the percentage report in binary64 *)

(** [s * n] on a string. *)
Fixpoint str_repeat (s : string) (n : nat) : string :=
  match n with
  | O => EmptyString
  | S n' => String.append s (str_repeat s n')
  end.

(** The same source functions with Python's [float] read as what it is, an
    IEEE binary64 number (the kernel's primitive floats), so that rounding
    and underflow are those of the program.  The count matrix is the one of
    [instances_to_count_matrix]; the scorers are the generic ones, at the
    instance below. *)
Module Binary64.

(** [float(z)] for an int; exact for the counts met here (below 2^53). *)
Definition float_of_int (z : Z) : PrimFloat.float :=
  if (z <? 0)%Z
  then PrimFloat.opp (PrimFloat.of_uint63 (Uint63.of_Z (- z)))
  else PrimFloat.of_uint63 (Uint63.of_Z z).

#[export] Instance Number_float : Number PrimFloat.float :=
  {| num_zero := float_of_int 0;
     num_one := float_of_int 1;
     num_add := PrimFloat.add;
     num_mul := PrimFloat.mul |}.

(** [a / b] on two ints: the quotient rounded to binary64 (for operands
    below 2^53, the binary64 quotient of their conversions). *)
Definition int_truediv (a b : Z) : result PrimFloat.float :=
  if (b =? 0)%Z then Raise ZeroDivisionError
  else Ok (PrimFloat.div (float_of_int a) (float_of_int b)).

Definition count_to_frequency_matrix (count_matrix : Dict.t (list Z))
  : result (Dict.t (list PrimFloat.float)) :=
  instance_count <-
    for_each BASES 0%Z (fun acc base =>
      n <- getitem2 count_matrix base 0 ;; Ok (acc + n)%Z) ;;
  for_each (Dict.items count_matrix) Dict.empty
    (fun frequency_matrix '(base, occurances) =>
      row <- mapM (fun occurance => int_truediv occurance instance_count)
                  occurances ;;
      Ok (Dict.set frequency_matrix base row)).

Definition get_frequency_matrix (instances : list string)
  : result (Dict.t (list PrimFloat.float)) :=
  count_matrix <- instances_to_count_matrix instances ;;
  count_to_frequency_matrix count_matrix.

Definition get_motifs_percentage (motifs : list string)
  : result (Dict.t PrimFloat.float) :=
  scoring_matrix <- get_frequency_matrix motifs ;;
  for_each motifs Dict.empty (fun score_dict motif =>
    s <- score_pssm motif scoring_matrix ;;
    Ok (Dict.set score_dict motif s)).

End Binary64.

(** Two motifs of 1075 characters: ['A' * 1075, 'T' * 1075]. *)
Definition underflow_motifs : list string :=
  [str_repeat "A" 1075; str_repeat "T" 1075].

(* ================================================================= *)
(** ** The error monad and loops *)

Lemma bind_Ok_inv {A B : Type} (c : result A) (k : A -> result B) (b : B) :
  bind c k = Ok b -> exists a, c = Ok a /\ k a = Ok b.
Proof.
  destruct c as [a|e]; simpl; intros Hk; [exists a; auto | discriminate].
Qed.

Lemma bind_Raise_inv {A B : Type} (c : result A) (k : A -> result B) (e : exn) :
  bind c k = Raise e -> c = Raise e \/ exists a, c = Ok a /\ k a = Raise e.
Proof.
  destruct c as [a|e']; simpl; intros Hk.
  - right; exists a; auto.
  - left; congruence.
Qed.

(** Destructs a hypothesis [x <- c ;; k = Ok b] into its successful steps. *)
Ltac bind_inv H :=
  let a := fresh "a" in
  let Ha := fresh "Ha" in
  apply bind_Ok_inv in H; destruct H as (a & Ha & H).

(** Equality of two closed rationals, and of two closed results built from
    rationals. *)
Ltac qc_eq :=
  match goal with
  | |- @eq Qc _ _ => apply Qc_is_canon; vm_compute; reflexivity
  end.

Ltac result_eq := vm_compute; repeat first [qc_eq | progress f_equal].

Lemma for_each_app {S X : Type} (xs ys : list X) (s : S) body :
  for_each (xs ++ ys) s body = (s' <- for_each xs s body ;; for_each ys s' body).
Proof.
  revert s; induction xs as [|x xs IH]; intros s; simpl; [reflexivity|].
  destruct (body s x); simpl; auto.
Qed.

(** A loop whose body raises at some element, whatever the state, raises;
    and the exception is one the body can raise. *)
Lemma for_each_raises {S X : Type} (P : exn -> Prop) (body : S -> X -> result S)
      (xs : list X) (x : X) (s : S) :
  (forall s' y e, body s' y = Raise e -> P e) ->
  In x xs ->
  (forall s', exists e, body s' x = Raise e) ->
  exists e, for_each xs s body = Raise e /\ P e.
Proof.
  intros HP Hin Hx; revert s.
  induction xs as [|y xs IH]; intros s; [destruct Hin|].
  simpl. destruct (body s y) as [s'|e] eqn:Hy; simpl.
  - destruct Hin as [->|Hin].
    + destruct (Hx s) as (e & He); congruence.
    + apply IH; exact Hin.
  - exists e; split; [reflexivity | eapply HP; eauto].
Qed.

Lemma mapM_pure {X Y : Type} (f : X -> result Y) (g : X -> Y) (xs : list X) :
  (forall x, In x xs -> f x = Ok (g x)) -> mapM f xs = Ok (map g xs).
Proof.
  induction xs as [|x xs IH]; intros Hf; simpl; [reflexivity|].
  rewrite (Hf x (or_introl eq_refl)); simpl.
  rewrite IH; [reflexivity | intros y Hy; apply Hf; right; exact Hy].
Qed.

Lemma in_range (i n : nat) : In i (range n) <-> i < n.
Proof. unfold range; rewrite in_seq; lia. Qed.

Lemma range_S (n : nat) : range (S n) = range n ++ [n].
Proof. unfold range; rewrite seq_S; reflexivity. Qed.

(* ================================================================= *)
(** ** Lists, strings and dictionaries *)

Lemma list_get_Ok {A : Type} (l : list A) (i : nat) (a : A) :
  list_get l i = Ok a <-> nth_error l i = Some a.
Proof.
  unfold list_get; destruct (nth_error l i); split; congruence.
Qed.

Lemma list_get_lt {A : Type} (l : list A) (i : nat) :
  i < List.length l -> exists a, list_get l i = Ok a.
Proof.
  intros Hi; unfold list_get.
  destruct (nth_error l i) as [a|] eqn:E; [eauto|].
  apply nth_error_None in E; lia.
Qed.

Lemma list_get_ge {A : Type} (l : list A) (i : nat) :
  List.length l <= i -> list_get l i = Raise IndexError.
Proof.
  intros Hi; unfold list_get.
  apply nth_error_None in Hi; rewrite Hi; reflexivity.
Qed.

Lemma list_get_Ok_lt {A : Type} (l : list A) (i : nat) (a : A) :
  list_get l i = Ok a -> i < List.length l.
Proof.
  rewrite list_get_Ok; intros E; apply nth_error_Some; congruence.
Qed.

Lemma list_get_raise {A : Type} (l : list A) (i : nat) (e : exn) :
  list_get l i = Raise e -> e = IndexError.
Proof. unfold list_get; destruct (nth_error l i); congruence. Qed.

Lemma str_get_lt (s : string) (i : nat) :
  i < String.length s -> exists c, String.get i s = Some c.
Proof.
  revert i; induction s as [|c s IH]; intros i Hi; simpl in *; [lia|].
  destruct i as [|i]; [eauto | apply IH; lia].
Qed.

Lemma str_get_Some_lt (s : string) (i : nat) (c : ascii) :
  String.get i s = Some c -> i < String.length s.
Proof.
  revert i; induction s as [|c' s IH]; intros i Hi; simpl in *; [discriminate|].
  destruct i as [|i]; [lia | apply IH in Hi; lia].
Qed.

Lemma str_get_raise (s : string) (i : nat) (e : exn) :
  str_get s i = Raise e -> e = IndexError.
Proof. unfold str_get; destruct (String.get i s); congruence. Qed.

Module DictFacts.

Lemma get_raise {V : Type} (d : Dict.t V) (k : string) (e : exn) :
  Dict.get d k = Raise e -> e = KeyError.
Proof.
  induction d as [|[k' v] d IH]; simpl; [congruence|].
  destruct (String.eqb k k'); [discriminate | exact IH].
Qed.

Lemma get_not_in {V : Type} (d : Dict.t V) (k : string) :
  ~ In k (Dict.keys d) -> Dict.get d k = Raise KeyError.
Proof.
  induction d as [|[k' v] d IH]; simpl; intros Hk; [reflexivity|].
  destruct (String.eqb_spec k k') as [->|Hne]; [tauto|].
  apply IH; tauto.
Qed.

Lemma get_In {V : Type} (d : Dict.t V) (k : string) (v : V) :
  Dict.get d k = Ok v -> In (k, v) d.
Proof.
  induction d as [|[k' v'] d IH]; simpl; [discriminate|].
  destruct (String.eqb_spec k k') as [->|Hne]; intros E.
  - left; congruence.
  - right; apply IH; exact E.
Qed.

Lemma In_get {V : Type} (d : Dict.t V) (k : string) (v : V) :
  NoDup (Dict.keys d) -> In (k, v) d -> Dict.get d k = Ok v.
Proof.
  induction d as [|[k' v'] d IH]; simpl; intros Hnd Hin; [destruct Hin|].
  inversion Hnd as [|? ? Hk' Hnd']; subst.
  destruct Hin as [E|Hin].
  - inversion E; subst. rewrite String.eqb_refl; reflexivity.
  - destruct (String.eqb_spec k k') as [->|Hne]; [|apply IH; assumption].
    exfalso; apply Hk'. apply (in_map fst) in Hin; exact Hin.
Qed.

Lemma get_set_eq {V : Type} (d : Dict.t V) (k : string) (v : V) :
  Dict.get (Dict.set d k v) k = Ok v.
Proof.
  induction d as [|[k' v'] d IH]; simpl.
  - rewrite String.eqb_refl; reflexivity.
  - destruct (String.eqb_spec k k') as [->|Hne]; simpl.
    + rewrite String.eqb_refl; reflexivity.
    + destruct (String.eqb_spec k k'); [contradiction | exact IH].
Qed.

Lemma get_set_ne {V : Type} (d : Dict.t V) (k k' : string) (v : V) :
  k <> k' -> Dict.get (Dict.set d k v) k' = Dict.get d k'.
Proof.
  intros Hne; induction d as [|[k0 v0] d IH]; simpl.
  - destruct (String.eqb_spec k' k); [congruence | reflexivity].
  - destruct (String.eqb_spec k k0) as [->|Hk]; simpl.
    + destruct (String.eqb_spec k' k0); [congruence | reflexivity].
    + destruct (String.eqb_spec k' k0); [reflexivity | exact IH].
Qed.

Lemma keys_set {V : Type} (d : Dict.t V) (k : string) (v v' : V) :
  Dict.get d k = Ok v' -> Dict.keys (Dict.set d k v) = Dict.keys d.
Proof.
  induction d as [|[k0 v0] d IH]; simpl; [discriminate|].
  destruct (String.eqb_spec k k0) as [->|Hk]; simpl; intros E.
  - reflexivity.
  - f_equal; apply IH; exact E.
Qed.

Lemma set_fresh {V : Type} (d : Dict.t V) (k : string) (v : V) :
  ~ In k (Dict.keys d) -> Dict.set d k v = d ++ [(k, v)].
Proof.
  induction d as [|[k0 v0] d IH]; simpl; intros Hk; [reflexivity|].
  destruct (String.eqb_spec k k0) as [->|Hne]; [tauto|].
  f_equal; apply IH; tauto.
Qed.

(** Every value of [d[k] = v] is [v] or a value of [d]. *)
Lemma values_set {V : Type} (d : Dict.t V) (k : string) (v x : V) :
  In x (Dict.values (Dict.set d k v)) -> x = v \/ In x (Dict.values d).
Proof.
  induction d as [|[k0 v0] d IH]; simpl.
  - intros [E|[]]; auto.
  - destruct (String.eqb_spec k k0) as [->|Hne]; simpl.
    + intros [E|Hin]; auto.
    + intros [E|Hin]; auto. destruct (IH Hin); auto.
Qed.

End DictFacts.

(* ================================================================= *)
(** ** Matrix cells *)

Lemma replace_nth_length {A : Type} (l : list A) (i : nat) (v : A) :
  List.length (replace_nth l i v) = List.length l.
Proof.
  revert i; induction l as [|a l IH]; intros [|i]; simpl; auto.
Qed.

Lemma nth_error_replace_nth_eq {A : Type} (l : list A) (i : nat) (v : A) :
  i < List.length l -> nth_error (replace_nth l i v) i = Some v.
Proof.
  revert i; induction l as [|a l IH]; intros [|i] Hi; simpl in *;
    try lia; [reflexivity | apply IH; lia].
Qed.

Lemma nth_error_replace_nth_ne {A : Type} (l : list A) (i j : nat) (v : A) :
  i <> j -> nth_error (replace_nth l i v) j = nth_error l j.
Proof.
  revert i j; induction l as [|a l IH]; intros [|i] [|j] Hij; simpl;
    try reflexivity; try lia.
  apply IH; lia.
Qed.

Lemma list_set_Ok {A : Type} (l l' : list A) (i : nat) (v : A) :
  list_set l i v = Ok l' -> i < List.length l /\ l' = replace_nth l i v.
Proof.
  unfold list_set. destruct (Nat.ltb_spec i (List.length l)); [|discriminate].
  intros E; split; [assumption | congruence].
Qed.

Lemma list_set_lt {A : Type} (l : list A) (i : nat) (v : A) :
  i < List.length l -> list_set l i v = Ok (replace_nth l i v).
Proof.
  intros Hi; unfold list_set.
  destruct (Nat.ltb_spec i (List.length l)); [reflexivity | lia].
Qed.

Section Cells.
Context {V : Type}.
Variables (m m' : Dict.t (list V)) (base : string) (i : nat) (v : V).
Hypothesis Hset : setitem2 m base i v = Ok m'.

Lemma setitem2_inv :
  exists row, Dict.get m base = Ok row /\ i < List.length row /\
              m' = Dict.set m base (replace_nth row i v).
Proof.
  unfold setitem2 in Hset. bind_inv Hset. bind_inv Hset.
  apply list_set_Ok in Ha0; destruct Ha0 as (Hi & ->).
  exists a; repeat split; congruence.
Qed.

Lemma setitem2_keys : Dict.keys m' = Dict.keys m.
Proof.
  destruct setitem2_inv as (row & Hrow & _ & ->).
  eapply DictFacts.keys_set; eauto.
Qed.

Lemma setitem2_row_length b : row_length m' b = row_length m b.
Proof.
  destruct setitem2_inv as (row & Hrow & _ & ->). unfold row_length.
  destruct (String.eqb_spec base b) as [<-|Hne].
  - rewrite DictFacts.get_set_eq, Hrow; simpl.
    rewrite replace_nth_length; reflexivity.
  - rewrite DictFacts.get_set_ne by assumption; reflexivity.
Qed.

Lemma getitem2_setitem2_eq : getitem2 m' base i = Ok v.
Proof.
  destruct setitem2_inv as (row & Hrow & Hi & ->). unfold getitem2.
  rewrite DictFacts.get_set_eq; simpl.
  apply list_get_Ok, nth_error_replace_nth_eq; exact Hi.
Qed.

Lemma getitem2_setitem2_ne b j :
  b <> base \/ j <> i -> getitem2 m' b j = getitem2 m b j.
Proof.
  intros Hne. destruct setitem2_inv as (row & Hrow & Hi & ->).
  unfold getitem2.
  destruct (String.eqb_spec base b) as [<-|Hb].
  - rewrite DictFacts.get_set_eq, Hrow; simpl. unfold list_get.
    rewrite nth_error_replace_nth_ne; [reflexivity|].
    destruct Hne as [Hne|Hne]; [contradiction | congruence].
  - rewrite DictFacts.get_set_ne by assumption; reflexivity.
Qed.
End Cells.

Lemma setitem2_succeeds {V : Type} (m : Dict.t (list V)) base i (x v : V) :
  getitem2 m base i = Ok x -> exists m', setitem2 m base i v = Ok m'.
Proof.
  unfold getitem2, setitem2; intros H. bind_inv H. rewrite Ha; simpl.
  apply list_get_Ok_lt in H. rewrite (list_set_lt _ _ v H); simpl; eauto.
Qed.

Lemma getitem2_row_length {V : Type} (m : Dict.t (list V)) base i L :
  row_length m base = Ok L -> i < L -> exists x, getitem2 m base i = Ok x.
Proof.
  unfold row_length, getitem2; intros H Hi. bind_inv H. rewrite Ha; simpl.
  apply list_get_lt. inversion H; subst; exact Hi.
Qed.

Lemma getitem2_Ok_row_length {V : Type} (m : Dict.t (list V)) base i x :
  getitem2 m base i = Ok x ->
  exists L, row_length m base = Ok L /\ i < L.
Proof.
  unfold row_length, getitem2; intros H. bind_inv H. rewrite Ha; simpl.
  eexists; split; [reflexivity | eapply list_get_Ok_lt; eauto].
Qed.

(* ================================================================= *)
(** ** Scorers: failures *)

Section ScorerLoop.
Context {T : Type}.
Variables (op : T -> T -> T) (str : string) (matrix : Dict.t (list T)).

Lemma getitem2_raise {V : Type} (m : Dict.t (list V)) base i e :
  getitem2 m base i = Raise e -> LookupError e = true.
Proof.
  unfold getitem2; intros H.
  apply bind_Raise_inv in H; destruct H as [H|(row & _ & H)].
  - apply DictFacts.get_raise in H; subst; reflexivity.
  - apply list_get_raise in H; subst; reflexivity.
Qed.

Lemma scorer_body_raise score i e :
  scorer_body op str matrix score i = Raise e -> LookupError e = true.
Proof.
  unfold scorer_body; intros H.
  apply bind_Raise_inv in H; destruct H as [H|(base & _ & H)].
  - apply str_get_raise in H; subst; reflexivity.
  - apply bind_Raise_inv in H; destruct H as [H|(x & _ & H)]; [|discriminate].
    eapply getitem2_raise; eauto.
Qed.

(** If the lookup of the character at some position fails, the loop fails
    with a lookup error. *)
Lemma scorer_loop_fails (init : T) (i : nat) (c : ascii) :
  String.get i str = Some c ->
  (exists e, getitem2 matrix (String c EmptyString) i = Raise e) ->
  fails_with_lookup_error
    (for_each (range (String.length str)) init (scorer_body op str matrix)).
Proof.
  intros Hc (e & He).
  apply for_each_raises with (x := i).
  - intros s' y e'; apply scorer_body_raise.
  - apply in_range; eapply str_get_Some_lt; eauto.
  - intros s'; exists e. unfold scorer_body, str_get.
    rewrite Hc; simpl. rewrite He; reflexivity.
Qed.
End ScorerLoop.

Section ScorerFailures.
Context {T : Type} `{Number T}.
Variables (str : string) (matrix : Dict.t (list T)).

Lemma scorers_fail_at (i : nat) (c : ascii) :
  String.get i str = Some c ->
  (exists e, getitem2 matrix (String c EmptyString) i = Raise e) ->
  fails_with_lookup_error (score_sum str matrix) /\
  fails_with_lookup_error (score_pssm str matrix) /\
  fails_with_lookup_error (score_pssm_log str matrix).
Proof.
  intros Hc He; split; [|split].
  - exact (scorer_loop_fails num_add str matrix num_one i c Hc He).
  - exact (scorer_loop_fails num_mul str matrix num_one i c Hc He).
  - exact (scorer_loop_fails num_add str matrix num_zero i c Hc He).
Qed.
End ScorerFailures.

(** C2 (code side): on the documented example, ["AT"] against the frequency
    matrix [{A:[1.0,0.0], T:[0.0,0.5], C:[0.0,0.5], G:[0.0,0.0]}],
    [score_sum] returns 2.5: the accumulator starts at 1, so the sum
    1.0 + 0.5 = 1.5 of the docstring is offset by one. *)
Theorem score_sum_AT_is_2_5 :
  score_sum "AT" example_frequency_matrix = Ok (flt 2.5) /\
  flt 2.5 <> flt 1.5.
Proof.
  split.
  - result_eq.
  - intros E. apply (f_equal this) in E. vm_compute in E. discriminate.
Qed.

(** C4 (as stated, refuted): the one-character string ["A"] is scored
    against the example matrix of motif length 2 by all three scorers,
    which return a score over the prefix. *)
Lemma scorers_accept_shorter_string :
  motif_length_is example_frequency_matrix 2 /\
  String.length "A" <> 2 /\
  score_sum "A" example_frequency_matrix = Ok (flt 2) /\
  score_pssm "A" example_frequency_matrix = Ok (flt 1) /\
  score_pssm_log "A" example_frequency_matrix = Ok (flt 1).
Proof.
  split; [|split; [discriminate|]].
  - intros base row. unfold example_frequency_matrix; simpl.
    repeat (destruct (String.eqb base _);
            [intros E; inversion E; reflexivity|]).
    discriminate.
  - repeat split; result_eq.
Qed.

(** C4 (amended): for every scoring matrix of motif length [L] and every
    string longer than [L], each of the three scorers fails (with a lookup
    error) rather than returning a score. *)
Theorem scorers_fail_on_longer_string
        {T : Type} `{Number T} (matrix : Dict.t (list T)) (L : nat)
        (str : string) :
  motif_length_is matrix L ->
  L < String.length str ->
  fails_with_lookup_error (score_sum str matrix) /\
  fails_with_lookup_error (score_pssm str matrix) /\
  fails_with_lookup_error (score_pssm_log str matrix).
Proof.
  intros HL Hlen.
  destruct (str_get_lt str L Hlen) as (c & Hc).
  apply scorers_fail_at with (i := L) (c := c); [exact Hc|].
  unfold getitem2.
  destruct (Dict.get matrix (String c EmptyString)) as [row|e] eqn:Hrow; simpl.
  - exists IndexError. apply list_get_ge. rewrite (HL _ _ Hrow). lia.
  - exists e; reflexivity.
Qed.

Lemma scorers_fail_on_longer_string_witness :
  motif_length_is example_frequency_matrix 2 /\
  2 < String.length "ATC" /\
  fails_with_lookup_error (score_sum "ATC" example_frequency_matrix) /\
  fails_with_lookup_error (score_pssm "ATC" example_frequency_matrix) /\
  fails_with_lookup_error (score_pssm_log "ATC" example_frequency_matrix).
Proof.
  assert (HL : motif_length_is example_frequency_matrix 2).
  { intros base row. unfold example_frequency_matrix; simpl.
    repeat (destruct (String.eqb base _);
            [intros E; inversion E; reflexivity|]).
    discriminate. }
  split; [exact HL|]. split; [simpl; lia|].
  apply (scorers_fail_on_longer_string example_frequency_matrix 2 "ATC");
    [exact HL | simpl; lia].
Defined.

(** C9: for every scoring matrix (in particular one keyed only by A, T, C
    and G) and every string with a character that is not a key of the
    matrix, each of the three scorers fails with a lookup error and returns
    no score. *)
Theorem scorers_fail_on_unknown_base
        {T : Type} `{Number T} (matrix : Dict.t (list T)) (str : string) :
  has_unknown_base str matrix ->
  fails_with_lookup_error (score_sum str matrix) /\
  fails_with_lookup_error (score_pssm str matrix) /\
  fails_with_lookup_error (score_pssm_log str matrix).
Proof.
  intros (i & c & Hc & Hk).
  apply scorers_fail_at with (i := i) (c := c); [exact Hc|].
  exists KeyError. unfold getitem2.
  rewrite (DictFacts.get_not_in _ _ Hk); reflexivity.
Qed.

Lemma scorers_fail_on_unknown_base_witness :
  has_unknown_base "AN" example_frequency_matrix /\
  fails_with_lookup_error (score_sum "AN" example_frequency_matrix) /\
  fails_with_lookup_error (score_pssm "AN" example_frequency_matrix) /\
  fails_with_lookup_error (score_pssm_log "AN" example_frequency_matrix).
Proof.
  assert (Hu : has_unknown_base "AN" example_frequency_matrix).
  { exists 1, "N"%char. split; [reflexivity|].
    simpl. intros [E|[E|[E|[E|[]]]]]; discriminate. }
  split; [exact Hu|].
  apply scorers_fail_on_unknown_base; exact Hu.
Defined.

(* ================================================================= *)
(** ** Frequency matrix converter: the instance count *)

Lemma mapM_raise_P {X Y : Type} (P : exn -> Prop) (f : X -> result Y)
      (xs : list X) (e : exn) :
  (forall x e', f x = Raise e' -> P e') -> mapM f xs = Raise e -> P e.
Proof.
  intros Hf; induction xs as [|x xs IH]; simpl; [discriminate|].
  destruct (f x) as [y|e'] eqn:Hx; simpl.
  - destruct (mapM f xs); simpl; [discriminate|].
    intros E; apply IH; congruence.
  - intros E; apply (Hf x). congruence.
Qed.

Lemma int_truediv_0 (a : Z) : int_truediv a 0 = Raise ZeroDivisionError.
Proof. reflexivity. Qed.

Lemma int_truediv_nonzero (a b : Z) :
  b <> 0%Z -> int_truediv a b = Ok (Qc_of_Z a / Qc_of_Z b)%Qc.
Proof.
  intros Hb; unfold int_truediv.
  destruct (Z.eqb_spec b 0); [contradiction | reflexivity].
Qed.

(** C5 (as stated, refuted): position 1 of this count matrix sums to 0, yet
    the converter returns a frequency matrix: only position 0 is summed. *)
Lemma count_to_frequency_matrix_ignores_later_positions :
  (forall base, In base BASES -> getitem2 uneven_count_matrix base 1 = Ok 0%Z) /\
  count_to_frequency_matrix uneven_count_matrix =
    Ok [("A", [flt 1; flt 0]); ("T", [flt 0; flt 0]);
        ("C", [flt 0; flt 0]); ("G", [flt 0; flt 0])].
Proof.
  split.
  - intros base [<-|[<-|[<-|[<-|[]]]]]; reflexivity.
  - result_eq.
Qed.

(** C5 (amended): for every count matrix whose four per-base counts at
    position 0 sum to 0, [count_to_frequency_matrix] fails with a division
    by zero rather than returning a frequency matrix. *)
Theorem count_to_frequency_matrix_zero_instances
        (count_matrix : Dict.t (list Z)) (a t c g : Z) :
  getitem2 count_matrix "A" 0 = Ok a ->
  getitem2 count_matrix "T" 0 = Ok t ->
  getitem2 count_matrix "C" 0 = Ok c ->
  getitem2 count_matrix "G" 0 = Ok g ->
  (a + t + c + g = 0)%Z ->
  count_to_frequency_matrix count_matrix = Raise ZeroDivisionError.
Proof.
  intros HA HT HC HG Hsum.
  unfold count_to_frequency_matrix, BASES; simpl.
  rewrite HA; simpl. rewrite HT; simpl. rewrite HC; simpl. rewrite HG; simpl.
  replace (a + t + c + g)%Z with 0%Z by lia.
  unfold getitem2 in HA. bind_inv HA. rename a0 into rowA.
  destruct rowA as [|a' rowA]; [discriminate|].
  apply DictFacts.get_In in Ha.
  match goal with
  | |- for_each ?xs ?s ?body = _ =>
      destruct (@for_each_raises _ _ (fun e => e = ZeroDivisionError)
                                 body xs ("A", a' :: rowA) s)
        as (e & He & ->); [| exact Ha | | exact He]
  end.
  - intros fm [base occ] e He.
    apply bind_Raise_inv in He; destruct He as [He|(row & _ & He)];
      [|discriminate].
    eapply (@mapM_raise_P _ _ (fun e => e = ZeroDivisionError)); [|exact He].
    intros x e' Hx. cbv beta in Hx. rewrite int_truediv_0 in Hx. congruence.
  - intros fm; exists ZeroDivisionError. reflexivity.
Qed.

Lemma count_to_frequency_matrix_zero_instances_witness :
  count_to_frequency_matrix empty_first_count_matrix = Raise ZeroDivisionError.
Proof.
  apply (@count_to_frequency_matrix_zero_instances
           empty_first_count_matrix 0 0 0 0); reflexivity.
Defined.

(* ================================================================= *)
(** ** Count matrix builder *)

Lemma adds_refl (m : Dict.t (list Z)) : adds (fun _ _ => 0%Z) m m.
Proof.
  repeat split; auto. intros base j n Hn. rewrite Z.add_0_r; exact Hn.
Qed.

Lemma adds_trans f g (m m' m'' : Dict.t (list Z)) :
  adds f m m' -> adds g m' m'' ->
  adds (fun base j => (f base j + g base j)%Z) m m''.
Proof.
  intros (Hk & Hl & Hc) (Hk' & Hl' & Hc'); repeat split.
  - congruence.
  - intros base; rewrite Hl'; apply Hl.
  - intros base j n Hn. rewrite Z.add_assoc. apply Hc', Hc, Hn.
Qed.

Lemma adds_ext f g (m m' : Dict.t (list Z)) :
  (forall base j, f base j = g base j) -> adds f m m' -> adds g m m'.
Proof.
  intros Hfg (Hk & Hl & Hc); repeat split; auto.
  intros base j n Hn. rewrite <- Hfg. apply Hc, Hn.
Qed.

Lemma adds_well_shaped f L (m m' : Dict.t (list Z)) :
  adds f m m' -> well_shaped L m -> well_shaped L m'.
Proof.
  intros (Hk & Hl & _) (HK & HL); split; [congruence|].
  intros base Hb; rewrite Hl; apply HL, Hb.
Qed.

Lemma str_get_Ok (s : string) (i : nat) (base : string) :
  str_get s i = Ok base <->
  exists c, String.get i s = Some c /\ base = String c EmptyString.
Proof.
  unfold str_get; destruct (String.get i s) as [c|]; split.
  - intros E; exists c; split; congruence.
  - intros (c' & E & ->); congruence.
  - discriminate.
  - intros (c' & E & _); discriminate.
Qed.

Lemma occurs_out_of_range base i instance :
  String.length instance <= i -> occurs base i instance = 0%Z.
Proof.
  intros Hi; unfold occurs, str_get.
  destruct (String.get i instance) as [c|] eqn:E; [|reflexivity].
  apply str_get_Some_lt in E; lia.
Qed.

Section CountInstance.
Variables (L : nat) (instance : string).
Hypothesis Hlen : String.length instance = L.
Hypothesis Hbases : over_bases instance.

(** The body of the inner loop of [instances_to_count_matrix]. *)
Let body (count_matrix : Dict.t (list Z)) (i : nat) :=
  base <- str_get instance i ;;
  n <- getitem2 count_matrix base i ;;
  setitem2 count_matrix base i (n + 1)%Z.

Lemma count_body_adds (m : Dict.t (list Z)) (i : nat) :
  well_shaped L m -> i < L ->
  exists m', body m i = Ok m' /\
             adds (fun base j => if (j =? i)%nat then occurs base j instance
                                 else 0%Z) m m'.
Proof.
  intros (HK & HL) Hi. unfold body.
  destruct (str_get_lt instance i) as (c & Hc); [lia|].
  assert (Hb : str_get instance i = Ok (String c EmptyString))
    by (apply str_get_Ok; eauto).
  rewrite Hb; simpl.
  destruct (getitem2_row_length m _ i L (HL _ (Hbases _ _ Hc)) Hi) as (n & Hn).
  rewrite Hn; simpl.
  destruct (setitem2_succeeds m _ i n (n + 1)%Z Hn) as (m' & Hm').
  exists m'; split; [exact Hm'|]. repeat split.
  - eapply setitem2_keys; eauto.
  - intros base; eapply setitem2_row_length; eauto.
  - intros base j x Hx.
    destruct (Nat.eqb_spec j i) as [->|Hj].
    + unfold occurs. rewrite Hb.
      destruct (String.eqb_spec (String c EmptyString) base) as [<-|Hne].
      * simpl Z.b2z. rewrite (getitem2_setitem2_eq _ _ _ _ _ Hm'). congruence.
      * simpl Z.b2z. rewrite Z.add_0_r.
        rewrite (getitem2_setitem2_ne _ _ _ _ _ Hm'); [exact Hx | left; congruence].
    + rewrite Z.add_0_r.
      rewrite (getitem2_setitem2_ne _ _ _ _ _ Hm'); [exact Hx | right; exact Hj].
Qed.

Lemma count_prefix_adds (k : nat) (m : Dict.t (list Z)) :
  well_shaped L m -> k <= L ->
  exists m', for_each (range k) m body = Ok m' /\
             adds (fun base j => if (j <? k)%nat then occurs base j instance
                                 else 0%Z) m m'.
Proof.
  intros Hm; induction k as [|k IH]; intros Hk.
  - exists m; split; [reflexivity|]. apply adds_refl.
  - destruct IH as (m1 & Hm1 & Hadds1); [lia|].
    destruct (count_body_adds m1 k) as (m2 & Hm2 & Hadds2);
      [eapply adds_well_shaped; eauto | lia |].
    exists m2; split.
    + rewrite range_S, for_each_app, Hm1; simpl. rewrite Hm2; reflexivity.
    + eapply adds_ext; [|eapply adds_trans; eauto].
      intros base j; simpl.
      destruct (Nat.ltb_spec j k), (Nat.eqb_spec j k), (Nat.ltb_spec j (S k));
        lia.
Qed.

Lemma count_instance_adds (m : Dict.t (list Z)) :
  well_shaped L m ->
  exists m', for_each (range (String.length instance)) m body = Ok m' /\
             adds (fun base j => occurs base j instance) m m'.
Proof.
  intros Hm. rewrite Hlen.
  destruct (count_prefix_adds L m Hm (le_n L)) as (m' & Hm' & Hadds).
  exists m'; split; [exact Hm'|].
  eapply adds_ext; [|exact Hadds].
  intros base j; simpl. destruct (Nat.ltb_spec j L); [reflexivity|].
  symmetry; apply occurs_out_of_range; lia.
Qed.
End CountInstance.

Lemma count_instances_adds (L : nat) (instances : list string) :
  (forall instance, In instance instances -> String.length instance = L) ->
  (forall instance, In instance instances -> over_bases instance) ->
  forall m, well_shaped L m ->
  exists m',
    for_each instances m (fun count_matrix instance =>
      for_each (range (String.length instance)) count_matrix
        (fun count_matrix i =>
           base <- str_get instance i ;;
           n <- getitem2 count_matrix base i ;;
           setitem2 count_matrix base i (n + 1)%Z)) = Ok m' /\
    adds (count_at instances) m m'.
Proof.
  induction instances as [|instance instances IH]; intros Hlen Hbases m Hm.
  - exists m; split; [reflexivity | apply adds_refl].
  - destruct (count_instance_adds L instance) with (m := m)
      as (m1 & Hm1 & Hadds1); auto using in_eq.
    destruct IH with (m := m1) as (m2 & Hm2 & Hadds2);
      auto using in_cons; [eapply adds_well_shaped; eauto|].
    exists m2; split.
    + simpl. rewrite Hm1; simpl. exact Hm2.
    + exact (adds_trans _ _ _ _ _ Hadds1 Hadds2).
Qed.

Lemma nth_error_repeat_lt {A : Type} (a : A) (n i : nat) :
  i < n -> nth_error (repeat a n) i = Some a.
Proof.
  revert i; induction n as [|n IH]; intros [|i] Hi; simpl; try lia;
    [reflexivity | apply IH; lia].
Qed.

Lemma comprehension_BASES {V : Type} (f : string -> V) :
  Dict.comprehension f BASES =
  [("A", f "A"); ("T", f "T"); ("C", f "C"); ("G", f "G")].
Proof. reflexivity. Qed.

Lemma blank_matrix_well_shaped {V : Type} (v : V) (L : nat) :
  well_shaped L (Dict.comprehension (fun _ => repeat v L) BASES).
Proof.
  rewrite comprehension_BASES; split; [reflexivity|].
  intros base [<-|[<-|[<-|[<-|[]]]]]; unfold row_length; simpl;
    rewrite repeat_length; reflexivity.
Qed.

Lemma blank_matrix_cell {V : Type} (v : V) (L : nat) base j :
  In base BASES -> j < L ->
  getitem2 (Dict.comprehension (fun _ => repeat v L) BASES) base j = Ok v.
Proof.
  rewrite comprehension_BASES.
  intros [<-|[<-|[<-|[<-|[]]]]] Hj; unfold getitem2; simpl;
    apply list_get_Ok, nth_error_repeat_lt; exact Hj.
Qed.

Lemma same_length_assertion (instances xs : list string) (first : string) :
  list_get instances 0 = Ok first ->
  (forall i, In i xs -> String.length i = String.length first) ->
  anyM (fun i => first <- list_get instances 0 ;;
                 Ok (negb (String.length first =? String.length i)%nat)) xs
  = Ok false.
Proof.
  intros Hfirst; rewrite Hfirst.
  induction xs as [|x xs IH]; intros Hlen; simpl; [reflexivity|].
  rewrite (Hlen x (or_introl eq_refl)), Nat.eqb_refl.
  simpl. apply IH. intros i Hi; apply Hlen; right; exact Hi.
Qed.

(** The count matrix in closed form: each cell is the number of instances
    with that base at that position. *)
Lemma instances_to_count_matrix_counts (instances : list string) (L : nat) :
  instances <> [] ->
  (forall instance, In instance instances -> String.length instance = L) ->
  (forall instance, In instance instances -> over_bases instance) ->
  exists count_matrix,
    instances_to_count_matrix instances = Ok count_matrix /\
    well_shaped L count_matrix /\
    forall base j, In base BASES -> j < L ->
      getitem2 count_matrix base j = Ok (count_at instances base j).
Proof.
  intros Hne Hlen Hbases.
  destruct instances as [|first rest] eqn:Hinst; [contradiction|].
  rewrite <- Hinst in *.
  assert (Hfirst : list_get instances 0 = Ok first) by (subst; reflexivity).
  assert (HfirstL : String.length first = L)
    by (apply Hlen; subst; left; reflexivity).
  unfold instances_to_count_matrix.
  rewrite (same_length_assertion instances instances first Hfirst);
    [|intros i Hi; rewrite (Hlen i Hi); congruence].
  simpl. rewrite Hfirst; simpl. rewrite HfirstL.
  destruct (count_instances_adds L instances Hlen Hbases _
              (blank_matrix_well_shaped 0%Z L)) as (m' & Hm' & Hadds).
  exists m'; split; [exact Hm'|]. split.
  - eapply adds_well_shaped; [exact Hadds | apply blank_matrix_well_shaped].
  - intros base j Hb Hj. destruct Hadds as (_ & _ & Hc).
    apply (Hc base j 0%Z). apply blank_matrix_cell; assumption.
Qed.

Lemma occurs_nonneg base i instance : (0 <= occurs base i instance)%Z.
Proof.
  unfold occurs. destruct (str_get instance i) as [b|]; [|lia].
  destruct (String.eqb b base); simpl; lia.
Qed.

Lemma count_at_nonneg instances base i : (0 <= count_at instances base i)%Z.
Proof.
  induction instances as [|x xs IH]; simpl; [lia|].
  pose proof (occurs_nonneg base i x); lia.
Qed.

(** An instance over the four bases has exactly one of them at each of its
    positions. *)
Lemma occurs_one_base (instance : string) (i : nat) :
  over_bases instance -> i < String.length instance ->
  (occurs "A" i instance + occurs "T" i instance +
   occurs "C" i instance + occurs "G" i instance = 1)%Z.
Proof.
  intros Hb Hi. destruct (str_get_lt instance i Hi) as (c & Hc).
  unfold occurs, str_get; rewrite Hc.
  destruct (Hb i c Hc) as [<-|[<-|[<-|[<-|[]]]]]; reflexivity.
Qed.

Lemma count_at_total (instances : list string) (L i : nat) :
  (forall instance, In instance instances -> String.length instance = L) ->
  (forall instance, In instance instances -> over_bases instance) ->
  i < L ->
  (count_at instances "A" i + count_at instances "T" i +
   count_at instances "C" i + count_at instances "G" i
   = Z.of_nat (List.length instances))%Z.
Proof.
  intros Hlen Hbases Hi; induction instances as [|x xs IH].
  - reflexivity.
  - cbn [count_at fold_right List.length]. fold (count_at xs "A" i).
    fold (count_at xs "T" i). fold (count_at xs "C" i).
    fold (count_at xs "G" i).
    pose proof (occurs_one_base x i (Hbases x (or_introl eq_refl))) as H1.
    rewrite (Hlen x (or_introl eq_refl)) in H1. specialize (H1 Hi).
    assert (IH' := IH (fun y Hy => Hlen y (or_intror Hy))
                      (fun y Hy => Hbases y (or_intror Hy))).
    lia.
Qed.

(** C6: for every non-empty list of [N] instances, all of length [L] and
    written with A, T, C and G only, [instances_to_count_matrix] returns a
    count matrix with the four bases as keys and rows of length [L] whose
    four per-base counts sum to [N] at every position. *)
Theorem count_matrix_columns_sum_to_instance_count
        (instances : list string) (L : nat) :
  instances <> [] ->
  (forall instance, In instance instances -> String.length instance = L) ->
  (forall instance, In instance instances -> over_bases instance) ->
  exists count_matrix,
    instances_to_count_matrix instances = Ok count_matrix /\
    well_shaped L count_matrix /\
    forall i, i < L ->
      exists a t c g,
        column count_matrix i a t c g /\
        (a + t + c + g = Z.of_nat (List.length instances))%Z.
Proof.
  intros Hne Hlen Hbases.
  destruct (instances_to_count_matrix_counts instances L Hne Hlen Hbases)
    as (cm & Hcm & Hshape & Hcells).
  exists cm; split; [exact Hcm|]; split; [exact Hshape|].
  intros i Hi.
  exists (count_at instances "A" i), (count_at instances "T" i),
         (count_at instances "C" i), (count_at instances "G" i).
  split.
  - repeat split; apply Hcells; simpl; tauto.
  - apply count_at_total with (L := L); assumption.
Qed.

Lemma count_matrix_columns_sum_to_instance_count_witness :
  exists count_matrix,
    instances_to_count_matrix ["ACC"; "ATG"] = Ok count_matrix /\
    well_shaped 3 count_matrix /\
    forall i, i < 3 ->
      exists a t c g,
        column count_matrix i a t c g /\
        (a + t + c + g = Z.of_nat (List.length ["ACC"; "ATG"]))%Z.
Proof.
  apply (count_matrix_columns_sum_to_instance_count ["ACC"; "ATG"] 3).
  - discriminate.
  - intros instance [<-|[<-|[]]]; reflexivity.
  - intros instance [<-|[<-|[]]] i c;
      destruct i as [|[|[|i]]]; simpl; intros E; inversion E; tauto.
Defined.

(* ================================================================= *)
(** ** Exact arithmetic on frequencies *)

Lemma Qc_of_Z_pos (z : Z) : (0 < z)%Z -> (0 < Qc_of_Z z)%Qc.
Proof.
  intros Hz. unfold Qclt.
  change (Qred 0 < Qred (inject_Z z))%Q. rewrite !Qred_correct.
  unfold Qlt; simpl. lia.
Qed.

Lemma Qc_of_Z_nonzero (z : Z) : z <> 0%Z -> Qc_of_Z z <> 0%Qc.
Proof.
  intros Hz E. unfold Qc_of_Z in E. apply Q2Qc_eq_iff in E.
  unfold Qeq in E; simpl in E. lia.
Qed.

Lemma Qcmult_pos (x y : Qc) : (0 < x -> 0 < y -> 0 < x * y)%Qc.
Proof.
  intros Hx Hy. rewrite <- (Qcmult_0_l y). apply Qcmult_lt_compat_r; assumption.
Qed.

Lemma Qcinv_pos (x : Qc) : (0 < x -> 0 < / x)%Qc.
Proof.
  unfold Qclt. change (Qred 0 < x -> Qred 0 < Qred (/ x))%Q.
  rewrite !Qred_correct. apply Qinv_lt_0_compat.
Qed.

Lemma Qcdiv_pos (x y : Qc) : (0 < x -> 0 < y -> 0 < x / y)%Qc.
Proof.
  intros Hx Hy. unfold Qcdiv. apply Qcmult_pos; [exact Hx | apply Qcinv_pos, Hy].
Qed.

Lemma Qc_eq_bool_true (x y : Qc) : Qc_eq_bool x y = true <-> x = y.
Proof.
  unfold Qc_eq_bool; destruct (Qc_eq_dec x y); split; congruence.
Qed.

Lemma Qc_eq_bool_false (x y : Qc) : Qc_eq_bool x y = false <-> x <> y.
Proof.
  unfold Qc_eq_bool; destruct (Qc_eq_dec x y); split; congruence.
Qed.

(* ================================================================= *)
(** ** Row-wise conversions of a matrix *)

Lemma NoDup_BASES : NoDup BASES.
Proof.
  unfold BASES. repeat constructor; simpl; intuition discriminate.
Qed.

Section ItemsLoop.
Context {V W : Type}.
Variables (F : V -> result W) (G : V -> W).

(** A loop [for base, v in d.items(): acc[base] = F v] over a dictionary
    on which [F] does not raise rebuilds [d] with [G] applied to its
    values. *)
Lemma items_loop_map (d : Dict.t V) (acc : Dict.t W) :
  NoDup (Dict.keys acc ++ Dict.keys d) ->
  (forall k v, In (k, v) d -> F v = Ok (G v)) ->
  for_each (Dict.items d) acc
           (fun acc '(base, v) => row <- F v ;; Ok (Dict.set acc base row))
  = Ok (acc ++ map (fun '(k, v) => (k, G v)) d).
Proof.
  revert acc; induction d as [|[k v] d IH]; intros acc Hnd HF; simpl.
  - rewrite app_nil_r; reflexivity.
  - rewrite (HF k v (or_introl eq_refl)); simpl.
    rewrite DictFacts.set_fresh.
    + rewrite IH.
      * rewrite <- app_assoc; reflexivity.
      * unfold Dict.keys in *. rewrite map_app, <- app_assoc. exact Hnd.
      * intros k' v' Hin; apply (HF k' v'); right; exact Hin.
    + apply NoDup_remove_2 in Hnd. intros Hin; apply Hnd, in_or_app; auto.
Qed.

Lemma get_map_values (d : Dict.t V) (k : string) :
  Dict.get (map (fun '(k, v) => (k, G v)) d) k
  = (v <- Dict.get d k ;; Ok (G v)).
Proof.
  induction d as [|[k' v] d IH]; simpl; [reflexivity|].
  destruct (String.eqb k k'); [reflexivity | exact IH].
Qed.

Lemma keys_map_values (d : Dict.t V) :
  Dict.keys (map (fun '(k, v) => (k, G v)) d) = Dict.keys d.
Proof.
  unfold Dict.keys. rewrite map_map. apply map_ext. intros [k v]; reflexivity.
Qed.
End ItemsLoop.

Lemma getitem2_map_rows {V W : Type} (g : V -> W) (m : Dict.t (list V)) base j :
  getitem2 (map (fun '(k, row) => (k, map g row)) m) base j
  = (x <- getitem2 m base j ;; Ok (g x)).
Proof.
  unfold getitem2. rewrite get_map_values.
  destruct (Dict.get m base) as [row|e]; simpl; [|reflexivity].
  unfold list_get. rewrite nth_error_map.
  destruct (nth_error row j); reflexivity.
Qed.

Lemma row_length_map_rows {V W : Type} (g : V -> W) (m : Dict.t (list V)) base :
  row_length (map (fun '(k, row) => (k, map g row)) m) base = row_length m base.
Proof.
  unfold row_length. rewrite get_map_values.
  destruct (Dict.get m base) as [row|e]; simpl; [|reflexivity].
  rewrite length_map; reflexivity.
Qed.

(* ================================================================= *)
(** ** Frequency matrix converter *)

(** With a non-zero instance count the converter divides every cell by it. *)
Lemma count_to_frequency_matrix_divides
      (count_matrix : Dict.t (list Z)) (a t c g : Z) :
  NoDup (Dict.keys count_matrix) ->
  getitem2 count_matrix "A" 0 = Ok a ->
  getitem2 count_matrix "T" 0 = Ok t ->
  getitem2 count_matrix "C" 0 = Ok c ->
  getitem2 count_matrix "G" 0 = Ok g ->
  (a + t + c + g <> 0)%Z ->
  count_to_frequency_matrix count_matrix =
  Ok (map (fun '(base, occurances) =>
             (base, map (fun occurance =>
                           (Qc_of_Z occurance / Qc_of_Z (a + t + c + g))%Qc)
                        occurances))
          count_matrix).
Proof.
  intros Hnd HA HT HC HG Hsum.
  unfold count_to_frequency_matrix, BASES; simpl.
  rewrite HA; simpl. rewrite HT; simpl. rewrite HC; simpl. rewrite HG; simpl.
  unfold Dict.empty.
  rewrite (items_loop_map _
             (map (fun occurance =>
                     (Qc_of_Z occurance / Qc_of_Z (a + t + c + g))%Qc)));
    [reflexivity | exact Hnd |].
  intros k row _. apply mapM_pure.
  intros x _. apply int_truediv_nonzero, Hsum.
Qed.

Lemma get_frequency_matrix_cells (instances : list string) (L : nat) :
  instances <> [] ->
  (forall instance, In instance instances -> String.length instance = L) ->
  (forall instance, In instance instances -> over_bases instance) ->
  0 < L ->
  exists frequency_matrix,
    get_frequency_matrix instances = Ok frequency_matrix /\
    well_shaped L frequency_matrix /\
    forall base j, In base BASES -> j < L ->
      getitem2 frequency_matrix base j =
      Ok (Qc_of_Z (count_at instances base j)
          / Qc_of_Z (Z.of_nat (List.length instances)))%Qc.
Proof.
  intros Hne Hlen Hbases HL.
  destruct (instances_to_count_matrix_counts instances L Hne Hlen Hbases)
    as (cm & Hcm & (Hkeys & Hrows) & Hcells).
  pose proof (count_at_total instances L 0 Hlen Hbases HL) as Htotal.
  assert (HN : (Z.of_nat (List.length instances) <> 0)%Z)
    by (destruct instances; [contradiction | simpl; lia]).
  unfold get_frequency_matrix. rewrite Hcm; simpl.
  rewrite (count_to_frequency_matrix_divides cm
             (count_at instances "A" 0) (count_at instances "T" 0)
             (count_at instances "C" 0) (count_at instances "G" 0));
    try (apply Hcells; [simpl; tauto | exact HL]).
  - rewrite Htotal. eexists; split; [reflexivity|]. split.
    + split; [rewrite keys_map_values; exact Hkeys|].
      intros base Hb. rewrite row_length_map_rows. apply Hrows, Hb.
    + intros base j Hb Hj. rewrite getitem2_map_rows.
      rewrite (Hcells base j Hb Hj); reflexivity.
  - rewrite Hkeys; apply NoDup_BASES.
  - rewrite Htotal; exact HN.
Qed.

(* ================================================================= *)
(** ** Percentage report *)

Lemma occurs_own_base instance i base :
  str_get instance i = Ok base -> occurs base i instance = 1%Z.
Proof.
  intros Hb; unfold occurs; rewrite Hb, String.eqb_refl; reflexivity.
Qed.

(** A motif of the training set is counted at each of its positions. *)
Lemma count_at_member (motifs : list string) (motif base : string) (i : nat) :
  In motif motifs -> str_get motif i = Ok base ->
  (1 <= count_at motifs base i)%Z.
Proof.
  intros Hin Hb; induction motifs as [|x xs IH]; [destruct Hin|].
  cbn [count_at fold_right]. fold (count_at xs base i).
  destruct Hin as [->|Hin].
  - rewrite (occurs_own_base _ _ _ Hb).
    pose proof (count_at_nonneg xs base i); lia.
  - pose proof (occurs_nonneg base i x). specialize (IH Hin). lia.
Qed.

Section PercentageOfMotif.
Variables (motifs : list string) (L : nat) (motif : string).
Variable frequency_matrix : Dict.t (list Qc).
Hypothesis Hmember : In motif motifs.
Hypothesis Hlen : String.length motif = L.
Hypothesis Hbases : over_bases motif.
Hypothesis Hcells :
  forall base j, In base BASES -> j < L ->
    getitem2 frequency_matrix base j =
    Ok (Qc_of_Z (count_at motifs base j)
        / Qc_of_Z (Z.of_nat (List.length motifs)))%Qc.

Lemma score_pssm_prefix_positive (k : nat) :
  k <= L ->
  exists score,
    for_each (range k) 1%Qc (scorer_body Qcmult motif frequency_matrix)
    = Ok score /\ (0 < score)%Qc.
Proof.
  induction k as [|k IH]; intros Hk.
  - exists 1%Qc; split; reflexivity.
  - destruct IH as (score & Hscore & Hpos); [lia|].
    destruct (str_get_lt motif k) as (c & Hc); [lia|].
    assert (Hb : str_get motif k = Ok (String c EmptyString))
      by (apply str_get_Ok; eauto).
    eexists; split.
    + rewrite range_S, for_each_app, Hscore; simpl.
      unfold scorer_body. rewrite Hb; simpl.
      rewrite (Hcells _ k (Hbases _ _ Hc)) by lia. simpl. reflexivity.
    + apply Qcmult_pos; [exact Hpos|].
      apply Qcdiv_pos; apply Qc_of_Z_pos.
      * pose proof (count_at_member motifs motif _ k Hmember Hb); lia.
      * destruct motifs; [destruct Hmember | simpl; lia].
Qed.

Lemma score_pssm_member_positive :
  exists score,
    score_pssm motif frequency_matrix = Ok score /\ (0 < score)%Qc.
Proof.
  unfold score_pssm. rewrite Hlen.
  apply (score_pssm_prefix_positive L (le_n L)).
Qed.
End PercentageOfMotif.

Lemma percentage_loop_positive (frequency_matrix : Dict.t (list Qc))
      (motifs : list string) :
  (forall motif, In motif motifs ->
     exists score, score_pssm motif frequency_matrix = Ok score
                   /\ (0 < score)%Qc) ->
  forall score_dict : Dict.t Qc,
    (forall x, In x (Dict.values score_dict) -> (0 < x)%Qc) ->
    exists score_dict',
      for_each motifs score_dict (fun score_dict motif =>
        s <- score_pssm motif frequency_matrix ;;
        Ok (Dict.set score_dict motif s)) = Ok score_dict' /\
      forall x, In x (Dict.values score_dict') -> (0 < x)%Qc.
Proof.
  induction motifs as [|motif motifs IH]; intros Hscore acc Hacc.
  - exists acc; split; [reflexivity | exact Hacc].
  - destruct (Hscore motif (or_introl eq_refl)) as (q & Hq & Hpos).
    simpl. rewrite Hq; simpl. apply IH.
    + intros m Hm; apply Hscore; right; exact Hm.
    + intros x Hx. apply DictFacts.values_set in Hx.
      destruct Hx as [->|Hx]; [exact Hpos | apply Hacc, Hx].
Qed.

(** C10 (amended): in exact rational arithmetic, for every non-empty list
    of motifs of equal length [L] written with A, T, C and G only, every
    value of the mapping that [get_motifs_percentage] returns is strictly
    positive; the mapping is returned whenever [L] is positive (for motifs
    of length 0 the call raises [IndexError] and there is no mapping). *)
Theorem motifs_percentage_positive (motifs : list string) (L : nat) :
  motifs <> [] ->
  (forall motif, In motif motifs -> String.length motif = L) ->
  (forall motif, In motif motifs -> over_bases motif) ->
  (forall score_dict,
      get_motifs_percentage motifs = Ok score_dict ->
      forall x, In x (Dict.values score_dict) -> (0 < x)%Qc) /\
  (0 < L -> exists score_dict, get_motifs_percentage motifs = Ok score_dict) /\
  (L = 0 -> get_motifs_percentage motifs = Raise IndexError).
Proof.
  intros Hne Hlen Hbases.
  assert (Hpos : 0 < L ->
    exists score_dict, get_motifs_percentage motifs = Ok score_dict /\
      forall x, In x (Dict.values score_dict) -> (0 < x)%Qc).
  { intros HL.
    destruct (get_frequency_matrix_cells motifs L Hne Hlen Hbases HL)
      as (fm & Hfm & _ & Hcells).
    unfold get_motifs_percentage. rewrite Hfm; simpl.
    apply percentage_loop_positive.
    - intros motif Hin.
      apply (score_pssm_member_positive motifs L motif fm Hin
               (Hlen motif Hin) (Hbases motif Hin) Hcells).
    - intros x []. }
  assert (Hzero : L = 0 -> get_motifs_percentage motifs = Raise IndexError).
  { intros ->.
    destruct (instances_to_count_matrix_counts motifs 0 Hne Hlen Hbases)
      as (cm & Hcm & (_ & Hrows) & _).
    unfold get_motifs_percentage, get_frequency_matrix. rewrite Hcm; simpl.
    unfold count_to_frequency_matrix, BASES; simpl.
    assert (HA : getitem2 cm "A" 0 = Raise IndexError).
    { specialize (Hrows "A" (or_introl eq_refl)).
      unfold row_length in Hrows; unfold getitem2. bind_inv Hrows.
      rewrite Ha; simpl. apply list_get_ge. inversion Hrows; lia. }
    rewrite HA; reflexivity. }
  split; [|split; [|exact Hzero]].
  - intros d Hd x Hx. destruct L as [|L].
    + rewrite Hzero in Hd by reflexivity. discriminate.
    + destruct Hpos as (d' & Hd' & Hall); [lia|].
      apply Hall. congruence.
  - intros HL. destruct (Hpos HL) as (d & Hd & _). eauto.
Qed.

Lemma motifs_percentage_positive_witness :
  (forall score_dict,
      get_motifs_percentage ["ACC"; "ATG"; "ACC"] = Ok score_dict ->
      forall x, In x (Dict.values score_dict) -> (0 < x)%Qc) /\
  (0 < 3 -> exists score_dict,
      get_motifs_percentage ["ACC"; "ATG"; "ACC"] = Ok score_dict) /\
  (3 = 0 -> get_motifs_percentage ["ACC"; "ATG"; "ACC"] = Raise IndexError).
Proof.
  apply (motifs_percentage_positive ["ACC"; "ATG"; "ACC"] 3).
  - discriminate.
  - intros motif [<-|[<-|[<-|[]]]]; reflexivity.
  - intros motif [<-|[<-|[<-|[]]]] i c;
      destruct i as [|[|[|i]]]; simpl; intros E; inversion E; tauto.
Defined.

(* ================================================================= *)
(** ** Pseudo-count smoother *)

Lemma for_each_Ok_each {S X : Type} (body : S -> X -> result S)
      (xs : list X) (s s' : S) (x : X) :
  for_each xs s body = Ok s' -> In x xs ->
  exists s1 s2, body s1 x = Ok s2.
Proof.
  revert s; induction xs as [|y xs IH]; intros s Hrun Hin; [destruct Hin|].
  simpl in Hrun. bind_inv Hrun.
  destruct Hin as [->|Hin]; [eauto | eapply IH; eauto].
Qed.

Lemma setitem2_well_shaped {V : Type} (L : nat) (m : Dict.t (list V))
      (base : string) (i : nat) (v : V) :
  well_shaped L m -> In base BASES -> i < L ->
  exists m', setitem2 m base i v = Ok m' /\
             well_shaped L m' /\
             getitem2 m' base i = Ok v /\
             forall b j, b <> base \/ j <> i ->
                         getitem2 m' b j = getitem2 m b j.
Proof.
  intros (Hkeys & Hrows) Hb Hi.
  destruct (getitem2_row_length m base i L (Hrows base Hb) Hi) as (x & Hx).
  destruct (setitem2_succeeds m base i x v Hx) as (m' & Hm').
  exists m'; split; [exact Hm'|]. split; [split|split].
  - rewrite (setitem2_keys _ _ _ _ _ Hm'); exact Hkeys.
  - intros b Hin. rewrite (setitem2_row_length _ _ _ _ _ Hm'); auto.
  - exact (getitem2_setitem2_eq _ _ _ _ _ Hm').
  - exact (getitem2_setitem2_ne _ _ _ _ _ Hm').
Qed.

Lemma mapM_BASES_inv {Y : Type} (f : string -> result Y) (l : list Y) :
  mapM f BASES = Ok l ->
  exists a t c g,
    f "A" = Ok a /\ f "T" = Ok t /\ f "C" = Ok c /\ f "G" = Ok g /\
    l = [a; t; c; g].
Proof.
  unfold BASES; simpl.
  destruct (f "A") as [a|]; simpl; [|discriminate].
  destruct (f "T") as [t|]; simpl; [|discriminate].
  destruct (f "C") as [c|]; simpl; [|discriminate].
  destruct (f "G") as [g|]; simpl; [|discriminate].
  intros E; inversion E. exists a, t, c, g; repeat split; reflexivity.
Qed.

Section PseudoCounts.
Variables (frequency_matrix : Dict.t (list Qc)) (low_frequency : Qc).

(** The body of the loop over positions of [add_pseudo_counts]. *)
Let body (pseudo_matrix : Dict.t (list Qc)) (i : nat) :=
  position_frequencies <-
    mapM (fun base => getitem2 frequency_matrix base i) BASES ;;
  diff <- position_diff low_frequency position_frequencies ;;
  for_each BASES pseudo_matrix (fun pseudo_matrix base =>
    base_frequency <- getitem2 frequency_matrix base i ;;
    setitem2 pseudo_matrix base i
             (if Qc_eq_bool base_frequency 0 then low_frequency
              else (base_frequency - diff)%Qc)).

Lemma pseudo_body_inv pm i pm' :
  body pm i = Ok pm' ->
  exists a t c g d, smoothable frequency_matrix low_frequency i a t c g d.
Proof.
  unfold body; intros H. bind_inv H. bind_inv H.
  apply mapM_BASES_inv in Ha. destruct Ha as (x & t & c & g & HA & HT & HC & HG & ->).
  exists x, t, c, g, a0. repeat split; assumption.
Qed.

Lemma pseudo_body_spec pm i L a t c g d :
  smoothable frequency_matrix low_frequency i a t c g d ->
  well_shaped L pm -> i < L ->
  exists pm',
    body pm i = Ok pm' /\ well_shaped L pm' /\
    column pm' i (pseudo low_frequency d a) (pseudo low_frequency d t)
                 (pseudo low_frequency d c) (pseudo low_frequency d g) /\
    forall base j, j <> i -> getitem2 pm' base j = getitem2 pm base j.
Proof.
  intros ((HA & HT & HC & HG) & Hd) Hpm Hi.
  unfold body, BASES; simpl.
  rewrite HA; simpl. rewrite HT; simpl. rewrite HC; simpl. rewrite HG; simpl.
  rewrite Hd; simpl.
  destruct (setitem2_well_shaped L pm "A" i (pseudo low_frequency d a) Hpm)
    as (pm1 & H1 & Hpm1 & Hv1 & Ho1); [simpl; tauto | exact Hi |].
  destruct (setitem2_well_shaped L pm1 "T" i (pseudo low_frequency d t) Hpm1)
    as (pm2 & H2 & Hpm2 & Hv2 & Ho2); [simpl; tauto | exact Hi |].
  destruct (setitem2_well_shaped L pm2 "C" i (pseudo low_frequency d c) Hpm2)
    as (pm3 & H3 & Hpm3 & Hv3 & Ho3); [simpl; tauto | exact Hi |].
  destruct (setitem2_well_shaped L pm3 "G" i (pseudo low_frequency d g) Hpm3)
    as (pm4 & H4 & Hpm4 & Hv4 & Ho4); [simpl; tauto | exact Hi |].
  unfold pseudo in H1, H2, H3, H4.
  rewrite H1; simpl. rewrite H2; simpl. rewrite H3; simpl. rewrite H4; simpl.
  exists pm4; split; [reflexivity|]. split; [exact Hpm4|]. split.
  - repeat split.
    + rewrite Ho4, Ho3, Ho2 by (left; discriminate). exact Hv1.
    + rewrite Ho4, Ho3 by (left; discriminate). exact Hv2.
    + rewrite Ho4 by (left; discriminate). exact Hv3.
    + exact Hv4.
  - intros base j Hj. rewrite Ho4, Ho3, Ho2, Ho1 by (right; exact Hj).
    reflexivity.
Qed.

Lemma pseudo_prefix_spec (L k : nat) pm0 :
  well_shaped L pm0 ->
  (forall i, i < L ->
     exists a t c g d, smoothable frequency_matrix low_frequency i a t c g d) ->
  k <= L ->
  exists pm,
    for_each (range k) pm0 body = Ok pm /\ well_shaped L pm /\
    forall i, i < k -> pseudo_position frequency_matrix low_frequency pm i.
Proof.
  intros Hpm0 Hok; induction k as [|k IH]; intros Hk.
  - exists pm0; split; [reflexivity|]. split; [exact Hpm0|]. intros i Hi; lia.
  - destruct IH as (pm1 & Hrun & Hpm1 & Hcells); [lia|].
    destruct (Hok k) as (a & t & c & g & d & Hs); [lia|].
    destruct (pseudo_body_spec pm1 k L a t c g d Hs Hpm1)
      as (pm2 & Hstep & Hpm2 & Hcol & Hother); [lia|].
    exists pm2; split; [|split; [exact Hpm2|]].
    + rewrite range_S, for_each_app, Hrun; simpl. rewrite Hstep; reflexivity.
    + intros i Hi. destruct (Nat.eq_dec i k) as [->|Hne].
      * exists a, t, c, g, d; split; assumption.
      * destruct (Hcells i) as (a' & t' & c' & g' & d' & Hs' & Hcol');
          [lia|].
        exists a', t', c', g', d'; split; [exact Hs'|].
        destruct Hcol' as (? & ? & ? & ?).
        repeat split; rewrite Hother by exact Hne; assumption.
Qed.

(** [add_pseudo_counts] succeeds exactly when every position up to the
    length of row A can be smoothed, and then returns the smoothed
    positions. *)
Lemma add_pseudo_counts_succeeds (L : nat) :
  row_length frequency_matrix "A" = Ok L ->
  (forall i, i < L ->
     exists a t c g d, smoothable frequency_matrix low_frequency i a t c g d) ->
  exists pm,
    add_pseudo_counts frequency_matrix low_frequency = Ok pm /\
    well_shaped L pm /\
    forall i, i < L -> pseudo_position frequency_matrix low_frequency pm i.
Proof.
  intros HL Hok. unfold add_pseudo_counts, BASES; simpl.
  unfold row_length in HL. bind_inv HL. rewrite Ha; simpl.
  inversion HL; subst.
  apply pseudo_prefix_spec;
    [apply (blank_matrix_well_shaped 0%Qc) | exact Hok | lia].
Qed.

Lemma add_pseudo_counts_spec pm :
  add_pseudo_counts frequency_matrix low_frequency = Ok pm ->
  exists L,
    row_length frequency_matrix "A" = Ok L /\
    well_shaped L pm /\
    forall i, i < L -> pseudo_position frequency_matrix low_frequency pm i.
Proof.
  intros Hrun.
  assert (Hrun' := Hrun).
  unfold add_pseudo_counts, BASES in Hrun'; simpl in Hrun'.
  bind_inv Hrun'. rename a into row0.
  assert (HL : row_length frequency_matrix "A" = Ok (List.length row0))
    by (unfold row_length; rewrite Ha; reflexivity).
  exists (List.length row0); split; [exact HL|].
  destruct (add_pseudo_counts_succeeds (List.length row0) HL)
    as (pm' & Hpm' & Hspec).
  - intros i Hi.
    destruct (for_each_Ok_each _ _ _ _ i Hrun') as (s1 & s2 & Hbody);
      [apply in_range; exact Hi|].
    exact (pseudo_body_inv s1 i s2 Hbody).
  - replace pm with pm' by congruence. exact Hspec.
Qed.
End PseudoCounts.

(* ================================================================= *)
(** ** Pseudo-count smoother: arithmetic of one position *)

Lemma Qc_of_Z_0 : Qc_of_Z 0 = 0%Qc.
Proof. apply Qc_is_canon; reflexivity. Qed.
Lemma Qc_of_Z_1 : Qc_of_Z 1 = 1%Qc.
Proof. apply Qc_is_canon; reflexivity. Qed.
Lemma Qc_of_Z_2 : Qc_of_Z 2 = (1 + 1)%Qc.
Proof. apply Qc_is_canon; reflexivity. Qed.
Lemma Qc_of_Z_3 : Qc_of_Z 3 = (1 + 1 + 1)%Qc.
Proof. apply Qc_is_canon; reflexivity. Qed.
Lemma Qc_of_Z_4 : Qc_of_Z 4 = (1 + 1 + 1 + 1)%Qc.
Proof. apply Qc_is_canon; reflexivity. Qed.

Lemma Qc_small_nonzero :
  (1 + 1 <> 0 /\ 1 + 1 + 1 <> 0 /\ 1 + 1 + 1 + 1 <> 0)%Qc.
Proof. repeat split; intros E; apply (f_equal this) in E; discriminate. Qed.

Lemma pseudo_column_sum low a t c g d :
  position_diff low [a; t; c; g] = Ok d ->
  (a + t + c + g = 1)%Qc ->
  (pseudo low d a + pseudo low d t + pseudo low d c + pseudo low d g = 1)%Qc.
Proof.
  unfold position_diff, nonzero_count, zero_count, pseudo, float_div_int.
  cbn [map fold_left List.length BASES].
  destruct (Qc_eq_bool a 0) eqn:Ea, (Qc_eq_bool t 0) eqn:Et,
           (Qc_eq_bool c 0) eqn:Ec, (Qc_eq_bool g 0) eqn:Eg;
  cbn -[Qc_of_Z Qcplus Qcmult Qcdiv Qcminus]; intros Hd Hsum;
  try discriminate; inversion Hd; subst d; clear Hd;
  repeat match goal with
         | H : Qc_eq_bool _ _ = true |- _ => apply Qc_eq_bool_true in H; subst
         | H : Qc_eq_bool _ _ = false |- _ => apply Qc_eq_bool_false in H
         end;
  rewrite ?Qc_of_Z_0, ?Qc_of_Z_1, ?Qc_of_Z_2, ?Qc_of_Z_3, ?Qc_of_Z_4;
  (etransitivity; [|exact Hsum]); field;
  destruct Qc_small_nonzero as (? & ? & ?); auto using Q_apart_0_1.
Qed.


Lemma position_diff_zero_free low a t c g :
  a <> 0%Qc -> t <> 0%Qc -> c <> 0%Qc -> g <> 0%Qc ->
  position_diff low [a; t; c; g] = Ok 0%Qc.
Proof.
  intros Ha Ht Hc Hg.
  unfold position_diff, nonzero_count, zero_count, float_div_int.
  cbn [map fold_left List.length BASES].
  apply Qc_eq_bool_false in Ha, Ht, Hc, Hg. rewrite Ha, Ht, Hc, Hg.
  cbn -[Qc_of_Z Qcplus Qcmult Qcdiv Qcminus].
  f_equal. rewrite Qc_of_Z_0, Qc_of_Z_4. field.
  apply Qc_small_nonzero.
Qed.

Lemma pseudo_zero low d : pseudo low d 0%Qc = low.
Proof. reflexivity. Qed.

Lemma pseudo_nonzero low d f : f <> 0%Qc -> pseudo low d f = (f - d)%Qc.
Proof.
  intros Hf; unfold pseudo. apply Qc_eq_bool_false in Hf; rewrite Hf; reflexivity.
Qed.

Lemma Qcminus_nonzero (f d : Qc) : f <> d -> (f - d)%Qc <> 0%Qc.
Proof.
  intros Hne E; apply Hne.
  transitivity (f - d + d)%Qc; [ring | rewrite E; ring].
Qed.

Lemma column_functional {V : Type} (m : Dict.t (list V)) i a t c g a' t' c' g' :
  column m i a t c g -> column m i a' t' c' g' ->
  a = a' /\ t = t' /\ c = c' /\ g = g'.
Proof.
  intros (HA & HT & HC & HG) (HA' & HT' & HC' & HG').
  repeat split; congruence.
Qed.

Lemma well_shaped_position {V : Type} (L : nat) (m : Dict.t (list V)) base i x :
  well_shaped L m -> getitem2 m base i = Ok x -> In base BASES /\ i < L.
Proof.
  intros (Hkeys & Hrows) Hx.
  assert (Hb : In base BASES).
  { unfold getitem2 in Hx. bind_inv Hx.
    apply DictFacts.get_In in Ha. rewrite <- Hkeys.
    apply (in_map fst) in Ha; exact Ha. }
  split; [exact Hb|].
  destruct (getitem2_Ok_row_length m base i x Hx) as (L' & HL' & Hi).
  rewrite (Hrows base Hb) in HL'. congruence.
Qed.

(* ================================================================= *)
(** ** Pseudo-count smoother: properties *)

Lemma example_pseudo_counts :
  add_pseudo_counts example_frequency_matrix default_low_frequency
  = Ok example_pseudo_matrix.
Proof.
  result_eq.
Qed.

Lemma example_columns_sum_to_1 i a t c g :
  column example_frequency_matrix i a t c g -> (a + t + c + g = 1)%Qc.
Proof.
  intros (HA & HT & HC & HG).
  destruct i as [|[|[|i]]]; try discriminate HA;
    inversion HA; inversion HT; inversion HC; inversion HG; subst; qc_eq.
Qed.

(** C3: when [add_pseudo_counts] succeeds on a frequency matrix whose four
    values at each position sum exactly to 1, the four values of the
    returned matrix at each position sum exactly to 1. *)
Theorem add_pseudo_counts_preserves_position_sum
        (frequency_matrix : Dict.t (list Qc)) (low_frequency : Qc)
        (pseudo_matrix : Dict.t (list Qc)) :
  add_pseudo_counts frequency_matrix low_frequency = Ok pseudo_matrix ->
  (forall i a t c g,
      column frequency_matrix i a t c g -> (a + t + c + g = 1)%Qc) ->
  forall i a t c g,
    column pseudo_matrix i a t c g -> (a + t + c + g = 1)%Qc.
Proof.
  intros Hrun Hsum i a' t' c' g' Hcol'.
  destruct (add_pseudo_counts_spec _ _ _ Hrun) as (L & _ & Hshape & Hcells).
  assert (Hi : i < L).
  { destruct Hcol' as (HA & _).
    apply (well_shaped_position L pseudo_matrix "A" i a' Hshape HA). }
  destruct (Hcells i Hi) as (a & t & c & g & d & (Hcol & Hd) & Hpcol).
  destruct (column_functional _ _ _ _ _ _ _ _ _ _ Hcol' Hpcol)
    as (-> & -> & -> & ->).
  apply pseudo_column_sum; [exact Hd | apply (Hsum i), Hcol].
Qed.

Lemma add_pseudo_counts_preserves_position_sum_witness :
  column example_pseudo_matrix 0 (flt 0.7) (flt 0.1) (flt 0.1) (flt 0.1) /\
  (flt 0.7 + flt 0.1 + flt 0.1 + flt 0.1 = 1)%Qc.
Proof.
  assert (Hcol : column example_pseudo_matrix 0
                        (flt 0.7) (flt 0.1) (flt 0.1) (flt 0.1))
    by (repeat split; reflexivity).
  split; [exact Hcol|].
  apply (add_pseudo_counts_preserves_position_sum
           example_frequency_matrix default_low_frequency
           example_pseudo_matrix example_pseudo_counts
           example_columns_sum_to_1 0 _ _ _ _ Hcol).
Defined.

(** C1 (as stated, refuted): with the default floor 0.1, a position with
    frequencies 0.1, 0.9, 0, 0 has tax 0.1, and the cell of A becomes
    0.1 - 0.1 = 0; and with the floor 0 the zero cells stay 0. *)
Lemma add_pseudo_counts_can_return_zero :
  (add_pseudo_counts skewed_frequency_matrix default_low_frequency
   = Ok skewed_pseudo_matrix /\
   getitem2 skewed_pseudo_matrix "A" 0 = Ok 0%Qc) /\
  (add_pseudo_counts example_frequency_matrix 0%Qc
   = Ok example_frequency_matrix /\
   getitem2 example_frequency_matrix "G" 0 = Ok 0%Qc).
Proof.
  repeat split; result_eq.
Qed.

(** C1 (amended): when [add_pseudo_counts] succeeds with a floor value
    other than 0, a cell of the returned matrix whose input cell is exactly
    0 is the floor value, and every cell of the returned matrix whose input
    cell is 0 or differs from the tax [diff] of its position is not 0. *)
Theorem add_pseudo_counts_replaces_zeros
        (frequency_matrix : Dict.t (list Qc)) (low_frequency : Qc)
        (pseudo_matrix : Dict.t (list Qc)) :
  low_frequency <> 0%Qc ->
  add_pseudo_counts frequency_matrix low_frequency = Ok pseudo_matrix ->
  forall base i y,
    getitem2 pseudo_matrix base i = Ok y ->
    exists a t c g d f,
      smoothable frequency_matrix low_frequency i a t c g d /\
      getitem2 frequency_matrix base i = Ok f /\
      (f = 0%Qc -> y = low_frequency) /\
      (f = 0%Qc \/ f <> d -> y <> 0%Qc).
Proof.
  intros Hlow Hrun base i y Hy.
  destruct (add_pseudo_counts_spec _ _ _ Hrun) as (L & _ & Hshape & Hcells).
  destruct (well_shaped_position L pseudo_matrix base i y Hshape Hy)
    as (Hb & Hi).
  destruct (Hcells i Hi)
    as (a & t & c & g & d & Hs & (HA & HT & HC & HG)).
  assert (Hcell : exists f, getitem2 frequency_matrix base i = Ok f /\
                            y = pseudo low_frequency d f).
  { destruct Hs as ((FA & FT & FC & FG) & _).
    destruct Hb as [<-|[<-|[<-|[<-|[]]]]]; eexists; split; eauto; congruence. }
  destruct Hcell as (f & Hf & ->).
  exists a, t, c, g, d, f. split; [exact Hs|]. split; [exact Hf|]. split.
  - intros ->. apply pseudo_zero.
  - destruct (Qc_eq_dec f 0) as [->|Hnz].
    + intros _. rewrite pseudo_zero. exact Hlow.
    + intros [E|Hne]; [contradiction|].
      rewrite (pseudo_nonzero _ _ _ Hnz). apply Qcminus_nonzero, Hne.
Qed.

Lemma add_pseudo_counts_replaces_zeros_witness :
  exists a t c g d f,
    smoothable example_frequency_matrix default_low_frequency 1 a t c g d /\
    getitem2 example_frequency_matrix "G" 1 = Ok f /\
    (f = 0%Qc -> flt 0.1 = default_low_frequency) /\
    (f = 0%Qc \/ f <> d -> flt 0.1 <> 0%Qc).
Proof.
  apply (add_pseudo_counts_replaces_zeros
           example_frequency_matrix default_low_frequency
           example_pseudo_matrix).
  - intros E; apply (f_equal this) in E; discriminate.
  - exact example_pseudo_counts.
  - reflexivity.
Defined.

Lemma rows_ext {V : Type} (r1 r2 : list V) (L : nat) :
  List.length r1 = L -> List.length r2 = L ->
  (forall i, i < L -> list_get r1 i = list_get r2 i) -> r1 = r2.
Proof.
  intros H1 H2 Hext. apply nth_error_ext. intros i.
  destruct (Nat.lt_ge_cases i L) as [Hi|Hi].
  - specialize (Hext i Hi). unfold list_get in Hext.
    destruct (nth_error r1 i) as [x|], (nth_error r2 i) as [y|]; congruence.
  - transitivity (@None V); [|symmetry]; apply nth_error_None; lia.
Qed.

Lemma dict_ext {V : Type} (d1 d2 : Dict.t V) :
  Dict.keys d1 = Dict.keys d2 -> NoDup (Dict.keys d1) -> Dict.eq d1 d2 ->
  d1 = d2.
Proof.
  revert d2; induction d1 as [|[k1 v1] d1 IH]; intros [|[k2 v2] d2];
    simpl; intros Hkeys Hnd Heq; try discriminate; [reflexivity|].
  inversion Hkeys as [[Hk Hkeys']]; subst k2.
  inversion Hnd as [|? ? Hfresh Hnd']; subst.
  assert (Hv : v1 = v2).
  { specialize (Heq k1); simpl in Heq. rewrite String.eqb_refl in Heq.
    congruence. }
  subst v2. f_equal. apply IH; [exact Hkeys' | exact Hnd' |].
  intros k. destruct (String.eqb_spec k k1) as [->|Hne].
  - rewrite !DictFacts.get_not_in; [reflexivity | rewrite <- Hkeys' |];
      exact Hfresh.
  - specialize (Heq k); simpl in Heq.
    destruct (String.eqb_spec k k1); [contradiction | exact Heq].
Qed.

(** C7: on a frequency matrix over the four bases (rows of one length) none
    of whose cells is exactly 0, and for every floor value,
    [add_pseudo_counts] returns a matrix equal to its input: the same rows
    under the same keys, and the very same dictionary when the keys of the
    input are in the order of [BASES]. *)
Theorem add_pseudo_counts_zero_free_unchanged
        (frequency_matrix : Dict.t (list Qc)) (low_frequency : Qc) (L : nat) :
  is_matrix L frequency_matrix ->
  zero_free frequency_matrix ->
  exists pseudo_matrix,
    add_pseudo_counts frequency_matrix low_frequency = Ok pseudo_matrix /\
    Dict.eq pseudo_matrix frequency_matrix /\
    (Dict.keys frequency_matrix = BASES -> pseudo_matrix = frequency_matrix).
Proof.
  intros (Hperm & Hrows) Hzf.
  assert (Hcol : forall i, i < L ->
            exists a t c g, column frequency_matrix i a t c g /\
              smoothable frequency_matrix low_frequency i a t c g 0%Qc).
  { intros i Hi.
    destruct (getitem2_row_length frequency_matrix "A" i L) as (a & HA);
      [apply Hrows; simpl; tauto | exact Hi |].
    destruct (getitem2_row_length frequency_matrix "T" i L) as (t & HT);
      [apply Hrows; simpl; tauto | exact Hi |].
    destruct (getitem2_row_length frequency_matrix "C" i L) as (c & HC);
      [apply Hrows; simpl; tauto | exact Hi |].
    destruct (getitem2_row_length frequency_matrix "G" i L) as (g & HG);
      [apply Hrows; simpl; tauto | exact Hi |].
    assert (Hc : column frequency_matrix i a t c g) by (repeat split; assumption).
    exists a, t, c, g; split; [exact Hc|]. split; [exact Hc|].
    apply position_diff_zero_free; eapply Hzf; eauto. }
  destruct (add_pseudo_counts_succeeds frequency_matrix low_frequency L)
    as (pm & Hrun & (Hkeys & Hprows) & Hcells).
  { apply Hrows; simpl; tauto. }
  { intros i Hi. destruct (Hcol i Hi) as (a & t & c & g & _ & Hs).
    exists a, t, c, g, 0%Qc; exact Hs. }
  assert (Hsame : forall base i, In base BASES -> i < L ->
            getitem2 pm base i = getitem2 frequency_matrix base i).
  { intros base i Hb Hi.
    destruct (Hcol i Hi) as (a & t & c & g & Hc & _ & Hd).
    destruct (Hcells i Hi) as (a' & t' & c' & g' & d & (Hc' & Hd') & Hp).
    destruct (column_functional _ _ _ _ _ _ _ _ _ _ Hc Hc')
      as (<- & <- & <- & <-).
    assert (d = 0%Qc) by congruence; subst d.
    assert (Hid : forall f, f <> 0%Qc -> pseudo low_frequency 0 f = f).
    { intros f Hf. rewrite (pseudo_nonzero _ _ _ Hf). ring. }
    destruct Hc as (FA & FT & FC & FG), Hp as (PA & PT & PC & PG).
    destruct Hb as [<-|[<-|[<-|[<-|[]]]]].
    - rewrite PA, FA, Hid; [reflexivity | eapply Hzf; eauto].
    - rewrite PT, FT, Hid; [reflexivity | eapply Hzf; eauto].
    - rewrite PC, FC, Hid; [reflexivity | eapply Hzf; eauto].
    - rewrite PG, FG, Hid; [reflexivity | eapply Hzf; eauto]. }
  assert (Heq : Dict.eq pm frequency_matrix).
  { intros k. destruct (in_dec string_dec k BASES) as [Hb|Hb].
    - pose proof (Hprows k Hb) as Hp. pose proof (Hrows k Hb) as Hf.
      unfold row_length in Hp, Hf. bind_inv Hp. bind_inv Hf.
      rewrite Ha, Ha0. f_equal.
      apply rows_ext with (L := L); [congruence | congruence |].
      intros i Hi. specialize (Hsame k i Hb Hi).
      unfold getitem2 in Hsame. rewrite Ha, Ha0 in Hsame. exact Hsame.
    - rewrite !DictFacts.get_not_in; [reflexivity | |].
      + intros Hin; apply Hb. eapply Permutation_in; eauto.
      + rewrite Hkeys; exact Hb. }
  exists pm; split; [exact Hrun|]. split; [exact Heq|].
  intros HK. apply dict_ext; [congruence | | exact Heq].
  rewrite Hkeys; apply NoDup_BASES.
Qed.

Lemma example_pseudo_matrix_well_shaped : well_shaped 2 example_pseudo_matrix.
Proof.
  split; [reflexivity|].
  intros base [<-|[<-|[<-|[<-|[]]]]]; reflexivity.
Qed.

Lemma example_pseudo_matrix_zero_free : zero_free example_pseudo_matrix.
Proof.
  intros base i x Hx.
  destruct (well_shaped_position 2 _ base i x
              example_pseudo_matrix_well_shaped Hx) as (Hb & Hi).
  destruct Hb as [<-|[<-|[<-|[<-|[]]]]];
    (destruct i as [|[|i]]; [| |lia]);
    inversion Hx; subst x; intros E; apply (f_equal this) in E; discriminate.
Qed.

Lemma add_pseudo_counts_zero_free_unchanged_witness :
  exists pseudo_matrix,
    add_pseudo_counts example_pseudo_matrix default_low_frequency
    = Ok pseudo_matrix /\
    Dict.eq pseudo_matrix example_pseudo_matrix /\
    (Dict.keys example_pseudo_matrix = BASES ->
     pseudo_matrix = example_pseudo_matrix).
Proof.
  apply (add_pseudo_counts_zero_free_unchanged
           example_pseudo_matrix default_low_frequency 2).
  - destruct example_pseudo_matrix_well_shaped as (Hkeys & Hrows).
    split; [rewrite Hkeys; apply Permutation_refl | exact Hrows].
  - exact example_pseudo_matrix_zero_free.
Defined.

(* ================================================================= *)
(** ** Log-scoring matrix converter *)

Lemma math_log_positive (x : R) : (0 < x)%R -> math_log x = Ok (ln x).
Proof.
  intros Hx; unfold math_log. destruct (Rlt_dec 0 x); [reflexivity | contradiction].
Qed.

Lemma positive_cells_rows (m : Dict.t (list R)) base row x :
  NoDup (Dict.keys m) -> positive_cells m ->
  In (base, row) m -> In x row -> (0 < x)%R.
Proof.
  intros Hnd Hpos Hrow Hx.
  apply In_nth_error in Hx; destruct Hx as (i & Hi).
  apply (Hpos base i x). unfold getitem2.
  rewrite (DictFacts.In_get m base row Hnd Hrow); simpl.
  apply list_get_Ok; exact Hi.
Qed.

Lemma map_cells_compose {U V W : Type} (f : U -> V) (g : V -> W)
      (m : Dict.t (list U)) :
  map_cells g (map_cells f m) = map_cells (fun x => g (f x)) m.
Proof.
  unfold map_cells. rewrite map_map. apply map_ext.
  intros [base row]. rewrite map_map. reflexivity.
Qed.

Lemma map_cells_id {V : Type} (f : V -> V) (m : Dict.t (list V)) :
  (forall base row x, In (base, row) m -> In x row -> f x = x) ->
  map_cells f m = m.
Proof.
  intros Hf. unfold map_cells.
  rewrite <- (map_id m) at 2. apply map_ext_in.
  intros [base row] Hin. f_equal.
  rewrite <- (map_id row) at 2. apply map_ext_in.
  intros x Hx. eapply Hf; eauto.
Qed.

(** On a matrix with strictly positive cells the converter succeeds and
    negates the logarithm of every cell. *)
Lemma freq_to_log_matrix_positive (frequency_matrix : Dict.t (list R)) :
  NoDup (Dict.keys frequency_matrix) ->
  positive_cells frequency_matrix ->
  freq_to_log_matrix frequency_matrix
  = Ok (map_cells (fun x => (- ln x)%R) frequency_matrix).
Proof.
  intros Hnd Hpos. unfold freq_to_log_matrix, Dict.empty, map_cells.
  rewrite (items_loop_map _ (map (fun x => (- ln x)%R)));
    [reflexivity | exact Hnd |].
  intros base row Hrow. apply mapM_pure.
  intros x Hx. rewrite math_log_positive; [reflexivity|].
  eapply positive_cells_rows; eauto.
Qed.

(** C8: for every matrix all of whose cells are strictly positive,
    [freq_to_log_matrix] returns a log matrix, and mapping each of its cells
    [x] to [exp (- x)] gives back the original matrix. *)
Theorem freq_to_log_matrix_round_trip (frequency_matrix : Dict.t (list R)) :
  NoDup (Dict.keys frequency_matrix) ->
  positive_cells frequency_matrix ->
  exists log_matrix,
    freq_to_log_matrix frequency_matrix = Ok log_matrix /\
    map_cells (fun x => exp (- x)) log_matrix = frequency_matrix.
Proof.
  intros Hnd Hpos. eexists; split.
  - apply freq_to_log_matrix_positive; assumption.
  - rewrite map_cells_compose. apply map_cells_id.
    intros base row x Hrow Hx.
    rewrite Ropp_involutive. apply exp_ln.
    eapply positive_cells_rows; eauto.
Qed.

Lemma example_real_matrix_positive : positive_cells example_real_matrix.
Proof.
  intros base i x Hx.
  assert (Hshape : well_shaped 2 example_real_matrix).
  { split; [reflexivity|].
    intros b [<-|[<-|[<-|[<-|[]]]]]; reflexivity. }
  destruct (well_shaped_position 2 _ base i x Hshape Hx) as (Hb & Hi).
  destruct Hb as [<-|[<-|[<-|[<-|[]]]]];
    (destruct i as [|[|i]]; [| |lia]);
    inversion Hx; subst x; lra.
Qed.

Lemma freq_to_log_matrix_round_trip_witness :
  exists log_matrix,
    freq_to_log_matrix example_real_matrix = Ok log_matrix /\
    map_cells (fun x => exp (- x)) log_matrix = example_real_matrix.
Proof.
  apply (freq_to_log_matrix_round_trip example_real_matrix).
  - apply NoDup_BASES.
  - exact example_real_matrix_positive.
Defined.

(* ================================================================= *)
(** ** Scorers: what they compute *)

Lemma mapM_length {X Y : Type} (f : X -> result Y) (xs : list X) (ys : list Y) :
  mapM f xs = Ok ys -> List.length ys = List.length xs.
Proof.
  revert ys; induction xs as [|x xs IH]; intros ys; simpl.
  - intros E; inversion E; reflexivity.
  - intros H. bind_inv H. bind_inv H. inversion H; subst; simpl.
    f_equal; apply IH; exact Ha0.
Qed.

Lemma mapM_In {X Y : Type} (f : X -> result Y) (xs : list X) (ys : list Y) (y : Y) :
  mapM f xs = Ok ys ->
  (In y ys <-> exists x, In x xs /\ f x = Ok y).
Proof.
  revert ys; induction xs as [|x xs IH]; intros ys; simpl.
  - intros E; inversion E; subst; simpl. split; [tauto | intros (? & [] & _)].
  - intros H. bind_inv H. bind_inv H. inversion H; subst; simpl.
    rewrite (IH a0 Ha0). split.
    + intros [<-|(x' & Hin & Hx')]; [exists x; auto | exists x'; auto].
    + intros (x' & [<-|Hin] & Hx'); [left; congruence | right; eauto].
Qed.

Lemma mapM_succeeds {X Y : Type} (f : X -> result Y) (xs : list X) :
  (forall x, In x xs -> exists y, f x = Ok y) -> exists ys, mapM f xs = Ok ys.
Proof.
  induction xs as [|x xs IH]; intros Hf; simpl; [eauto|].
  destruct (Hf x (or_introl eq_refl)) as (y & Hy). rewrite Hy; simpl.
  destruct IH as (ys & Hys); [intros x' Hx'; apply Hf; right; exact Hx'|].
  rewrite Hys; simpl; eauto.
Qed.

(** A scorer folds its operation over the cells it reads, and fails where
    reading them fails. *)
Lemma scorer_loop_fold {T : Type} (op : T -> T -> T) (str : string)
      (matrix : Dict.t (list T)) (xs : list nat) (init : T) :
  for_each xs init (scorer_body op str matrix)
  = (cells <- mapM (fun i => base <- str_get str i ;; getitem2 matrix base i) xs ;;
     Ok (fold_left op cells init)).
Proof.
  revert init; induction xs as [|x xs IH]; intros init; simpl; [reflexivity|].
  unfold scorer_body at 1.
  destruct (str_get str x) as [base|e]; simpl; [|reflexivity].
  destruct (getitem2 matrix base x) as [v|e]; simpl; [|reflexivity].
  rewrite IH.
  destruct (mapM _ xs); reflexivity.
Qed.

Lemma score_sum_fold {T : Type} `{Number T} (str : string) (matrix : Dict.t (list T)) :
  score_sum str matrix
  = (cells <- path_cells str matrix ;; Ok (fold_left num_add cells num_one)).
Proof. exact (scorer_loop_fold num_add str matrix _ num_one). Qed.

Lemma score_pssm_fold {T : Type} `{Number T} (str : string) (matrix : Dict.t (list T)) :
  score_pssm str matrix
  = (cells <- path_cells str matrix ;; Ok (fold_left num_mul cells num_one)).
Proof. exact (scorer_loop_fold num_mul str matrix _ num_one). Qed.

Lemma score_pssm_log_fold {T : Type} `{Number T} (str : string)
      (matrix : Dict.t (list T)) :
  score_pssm_log str matrix
  = (cells <- path_cells str matrix ;; Ok (fold_left num_add cells num_zero)).
Proof. exact (scorer_loop_fold num_add str matrix _ num_zero). Qed.

Lemma path_cells_succeeds {T : Type} (str : string) (matrix : Dict.t (list T))
      (L : nat) :
  (forall base, In base BASES -> row_length matrix base = Ok L) ->
  over_bases str -> String.length str <= L ->
  exists cells, path_cells str matrix = Ok cells.
Proof.
  intros Hrows Hbases Hlen. apply mapM_succeeds.
  intros i Hi. apply in_range in Hi.
  destruct (str_get_lt str i Hi) as (c & Hc).
  unfold str_get; rewrite Hc; simpl.
  apply getitem2_row_length with (L := L); [|lia].
  apply Hrows. exact (Hbases i c Hc).
Qed.

Lemma fold_left_Qcplus_init (xs : list Qc) (a : Qc) :
  fold_left Qcplus xs a = (a + fold_left Qcplus xs 0)%Qc.
Proof.
  revert a; induction xs as [|x xs IH]; intros a; simpl; [ring|].
  rewrite (IH (a + x)%Qc), (IH (0 + x)%Qc). ring.
Qed.

Lemma fold_left_Qcmult_zero (xs : list Qc) (a : Qc) :
  fold_left Qcmult xs a = 0%Qc <-> a = 0%Qc \/ In 0%Qc xs.
Proof.
  revert a; induction xs as [|x xs IH]; intros a; simpl; [tauto|].
  rewrite IH. split.
  - intros [E|Hin]; [|tauto].
    apply Qcmult_integral in E. destruct E as [E|E]; auto.
  - intros [->|[->|Hin]]; [left; ring | left; ring | tauto].
Qed.

Lemma Qcle_0_1 : (0 <= 1)%Qc.
Proof. discriminate. Qed.

Lemma fold_left_Qcmult_unit (xs : list Qc) (a : Qc) :
  (0 <= a /\ a <= 1)%Qc ->
  (forall x, In x xs -> (0 <= x /\ x <= 1)%Qc) ->
  (0 <= fold_left Qcmult xs a /\ fold_left Qcmult xs a <= 1)%Qc.
Proof.
  revert a; induction xs as [|x xs IH]; intros a Ha Hxs; simpl; [exact Ha|].
  destruct (Hxs x (or_introl eq_refl)) as (Hx0 & Hx1). destruct Ha as (Ha0 & Ha1).
  apply IH; [|intros y Hy; apply Hxs; right; exact Hy].
  split.
  - rewrite <- (Qcmult_0_l x). apply Qcmult_le_compat_r; assumption.
  - apply Qcle_trans with (1 * x)%Qc.
    + apply Qcmult_le_compat_r; assumption.
    + rewrite Qcmult_1_l; exact Hx1.
Qed.

Lemma Qc_of_Z_plus (a b : Z) : Qc_of_Z (a + b) = (Qc_of_Z a + Qc_of_Z b)%Qc.
Proof.
  unfold Qc_of_Z, Qcplus. apply Q2Qc_eq_iff.
  change (inject_Z (a + b) == Qred (inject_Z a) + Qred (inject_Z b))%Q.
  rewrite !Qred_correct, inject_Z_plus. reflexivity.
Qed.

Lemma fold_left_Qcplus_unit (xs : list Qc) (a : Qc) :
  (forall x, In x xs -> (0 <= x /\ x <= 1)%Qc) ->
  (a <= fold_left Qcplus xs a /\
   fold_left Qcplus xs a <= a + Qc_of_Z (Z.of_nat (List.length xs)))%Qc.
Proof.
  revert a; induction xs as [|x xs IH]; intros a Hxs.
  - simpl. rewrite Qc_of_Z_0, Qcplus_0_r. split; apply Qcle_refl.
  - destruct (Hxs x (or_introl eq_refl)) as (Hx0 & Hx1).
    destruct (IH (a + x)%Qc) as (Hlo & Hhi);
      [intros y Hy; apply Hxs; right; exact Hy|].
    cbn [fold_left List.length]. split.
    + apply Qcle_trans with (a + x)%Qc; [|exact Hlo].
      rewrite <- (Qcplus_0_r a) at 1.
      apply Qcplus_le_compat; [apply Qcle_refl | exact Hx0].
    + apply Qcle_trans with (1 := Hhi).
      rewrite Nat2Z.inj_succ, <- Z.add_1_l, Qc_of_Z_plus, Qc_of_Z_1.
      rewrite (Qcplus_assoc a 1).
      apply Qcplus_le_compat; [|apply Qcle_refl].
      apply Qcplus_le_compat; [apply Qcle_refl | exact Hx1].
Qed.

Lemma example_frequency_matrix_is_matrix : is_matrix 2 example_frequency_matrix.
Proof.
  split; [apply Permutation_refl|].
  intros base [<-|[<-|[<-|[<-|[]]]]]; reflexivity.
Qed.

Lemma over_bases_AT : over_bases "AT".
Proof.
  intros i c. destruct i as [|[|i]]; simpl; intros E; inversion E; tauto.
Qed.

(** X1: against a matrix over the four bases with rows of length [L], a
    string written with A, T, C and G only and no longer than [L] is scored
    by each of the three scorers: none of them raises. *)
Theorem scorers_return_on_well_formed_input
        {T : Type} `{Number T} (matrix : Dict.t (list T)) (L : nat)
        (str : string) :
  is_matrix L matrix -> over_bases str -> String.length str <= L ->
  (exists score, score_sum str matrix = Ok score) /\
  (exists score, score_pssm str matrix = Ok score) /\
  (exists score, score_pssm_log str matrix = Ok score).
Proof.
  intros (_ & Hrows) Hbases Hlen.
  destruct (path_cells_succeeds str matrix L Hrows Hbases Hlen) as (cells & Hcells).
  rewrite score_sum_fold, score_pssm_fold, score_pssm_log_fold, Hcells; simpl.
  repeat split; eauto.
Qed.

Lemma scorers_return_on_well_formed_input_witness :
  (exists score, score_sum "AT" example_frequency_matrix = Ok score) /\
  (exists score, score_pssm "AT" example_frequency_matrix = Ok score) /\
  (exists score, score_pssm_log "AT" example_frequency_matrix = Ok score).
Proof.
  apply (scorers_return_on_well_formed_input example_frequency_matrix 2 "AT").
  - exact example_frequency_matrix_is_matrix.
  - exact over_bases_AT.
  - simpl; lia.
Defined.

(** X2: on every string and every matrix, [score_sum] is [score_pssm_log]
    plus one: it raises the same exception where [score_pssm_log] raises,
    and returns one more where it returns. *)
Theorem score_sum_is_one_plus_log_sum (str : string) (matrix : Dict.t (list Qc)) :
  score_sum str matrix
  = (score <- score_pssm_log str matrix ;; Ok (1 + score)%Qc).
Proof.
  rewrite score_sum_fold, score_pssm_log_fold.
  destruct (path_cells str matrix) as [cells|e]; simpl; [|reflexivity].
  f_equal. apply fold_left_Qcplus_init.
Qed.

(** X3: in exact rational arithmetic, a score returned by [score_pssm] is 0
    exactly when the matrix has a zero cell for the character of the string
    at one of its positions.  (In binary64 a product of non-zero cells can
    also underflow to 0.0.) *)
Theorem score_pssm_zero_iff_zero_cell
        (str : string) (matrix : Dict.t (list Qc)) (score : Qc) :
  score_pssm str matrix = Ok score ->
  (score = 0%Qc <->
   exists i c, String.get i str = Some c /\
               getitem2 matrix (String c EmptyString) i = Ok 0%Qc).
Proof.
  rewrite score_pssm_fold. intros H. bind_inv H. inversion H; subst score.
  change (@num_mul Qc Number_Qc) with Qcmult.
  change (@num_one Qc Number_Qc) with 1%Qc.
  rewrite fold_left_Qcmult_zero. unfold path_cells in Ha.
  rewrite (mapM_In _ _ _ 0%Qc Ha). split.
  - intros [E|(i & Hi & Hcell)]; [exfalso; revert E; apply Q_apart_0_1|].
    bind_inv Hcell. apply str_get_Ok in Ha0. destruct Ha0 as (c & Hc & ->).
    exists i, c; split; assumption.
  - intros (i & c & Hc & Hcell). right. exists i. split.
    + apply in_range. eapply str_get_Some_lt; eauto.
    + unfold str_get; rewrite Hc; simpl. exact Hcell.
Qed.

Lemma score_pssm_zero_iff_zero_cell_witness :
  flt 0 = 0%Qc <->
  exists i c, String.get i "AG" = Some c /\
              getitem2 example_frequency_matrix (String c EmptyString) i
              = Ok 0%Qc.
Proof.
  apply (score_pssm_zero_iff_zero_cell "AG" example_frequency_matrix (flt 0)).
  result_eq.
Defined.

(** X4: when every cell of the matrix is between 0 and 1, a score returned
    by [score_pssm] is between 0 and 1, and a score returned by [score_sum]
    is between 1 and 1 plus the length of the string. *)
Theorem scores_of_frequencies_bounded
        (str : string) (matrix : Dict.t (list Qc)) :
  unit_cells matrix ->
  (forall score, score_pssm str matrix = Ok score ->
                 (0 <= score /\ score <= 1)%Qc) /\
  (forall score, score_sum str matrix = Ok score ->
                 (1 <= score /\
                  score <= 1 + Qc_of_Z (Z.of_nat (String.length str)))%Qc).
Proof.
  intros Hunit.
  assert (Hcells : forall cells, path_cells str matrix = Ok cells ->
            List.length cells = String.length str /\
            forall x, In x cells -> (0 <= x /\ x <= 1)%Qc).
  { intros cells Hc. split.
    - rewrite (mapM_length _ _ _ Hc). unfold range. apply length_seq.
    - intros x Hx. apply (mapM_In _ _ _ x Hc) in Hx.
      destruct Hx as (i & _ & Hi). bind_inv Hi. eapply Hunit; eauto. }
  split; intros score H.
  - rewrite score_pssm_fold in H. bind_inv H. inversion H; subst score.
    destruct (Hcells a Ha) as (_ & Hall).
    apply fold_left_Qcmult_unit; [|exact Hall].
    split; [exact Qcle_0_1 | apply Qcle_refl].
  - rewrite score_sum_fold in H. bind_inv H. inversion H; subst score.
    destruct (Hcells a Ha) as (Hlen & Hall). rewrite <- Hlen.
    apply (fold_left_Qcplus_unit a 1%Qc Hall).
Qed.

Lemma example_frequency_matrix_unit_cells : unit_cells example_frequency_matrix.
Proof.
  intros base i x Hx.
  assert (Hshape : well_shaped 2 example_frequency_matrix).
  { split; [reflexivity|].
    intros b [<-|[<-|[<-|[<-|[]]]]]; reflexivity. }
  destruct (well_shaped_position 2 _ base i x Hshape Hx) as (Hb & Hi).
  destruct Hb as [<-|[<-|[<-|[<-|[]]]]];
    (destruct i as [|[|i]]; [| |lia]);
    inversion Hx; subst x; split; discriminate.
Qed.

Lemma scores_of_frequencies_bounded_witness :
  (forall score, score_pssm "AT" example_frequency_matrix = Ok score ->
                 (0 <= score /\ score <= 1)%Qc) /\
  (forall score, score_sum "AT" example_frequency_matrix = Ok score ->
                 (1 <= score /\
                  score <= 1 + Qc_of_Z (Z.of_nat (String.length "AT")))%Qc).
Proof.
  apply (scores_of_frequencies_bounded "AT" example_frequency_matrix).
  exact example_frequency_matrix_unit_cells.
Defined.

(* ================================================================= *)
(** ** Count matrix builder: rejected inputs *)

(** X5: on an empty list of instances the builder raises [IndexError] (the
    length assertion holds vacuously and [instances[0]] fails), and so does
    every function built on it. *)
Theorem empty_instances_raise_IndexError :
  instances_to_count_matrix [] = Raise IndexError /\
  get_frequency_matrix [] = Raise IndexError /\
  get_scoring_matrix [] = Raise IndexError /\
  get_motifs_percentage [] = Raise IndexError /\
  get_motifs_score [] = Raise IndexError /\
  get_total_motifs_percentage [] = Raise IndexError /\
  get_total_motifs_score [] = Raise IndexError.
Proof. repeat split; reflexivity. Qed.

Lemma any_length_mismatch (first : string) (xs : list string) :
  (exists i, In i xs /\ String.length i <> String.length first) ->
  anyM (fun i => first0 <- Ok first ;;
                 Ok (negb (String.length first0 =? String.length i)%nat)) xs
  = Ok true.
Proof.
  induction xs as [|x xs IH]; intros (i & Hin & Hne); [destruct Hin|].
  simpl. destruct (Nat.eqb_spec (String.length first) (String.length x)) as [E|E];
    simpl; [|reflexivity].
  apply IH. destruct Hin as [->|Hin]; [congruence | eauto].
Qed.

(** X6: when some instance has a length different from the first one, the
    builder raises [AssertionError] and builds nothing. *)
Theorem unequal_lengths_raise_AssertionError
        (instances : list string) (first : string) :
  list_get instances 0 = Ok first ->
  (exists i, In i instances /\ String.length i <> String.length first) ->
  instances_to_count_matrix instances = Raise AssertionError.
Proof.
  intros Hfirst Hbad. unfold instances_to_count_matrix.
  rewrite Hfirst. rewrite (any_length_mismatch first instances Hbad).
  reflexivity.
Qed.

Lemma unequal_lengths_raise_AssertionError_witness :
  instances_to_count_matrix ["ACC"; "AT"] = Raise AssertionError.
Proof.
  apply (unequal_lengths_raise_AssertionError ["ACC"; "AT"] "ACC").
  - reflexivity.
  - exists "AT". split; [simpl; tauto | discriminate].
Defined.

Section CountUnknownBase.
Variable L : nat.

Let body (instance : string) (count_matrix : Dict.t (list Z)) (i : nat) :=
  base <- str_get instance i ;;
  n <- getitem2 count_matrix base i ;;
  setitem2 count_matrix base i (n + 1)%Z.

(** Counting one instance either goes through, and then the instance is
    written with the four bases, or raises [KeyError]. *)
Lemma count_prefix_or_KeyError (instance : string) (k : nat)
      (m : Dict.t (list Z)) :
  well_shaped L m -> String.length instance = L -> k <= L ->
  (exists m', for_each (range k) m (body instance) = Ok m' /\
              well_shaped L m' /\
              forall i c, i < k -> String.get i instance = Some c ->
                          In (String c EmptyString) BASES) \/
  for_each (range k) m (body instance) = Raise KeyError.
Proof.
  intros Hm Hlen; induction k as [|k IH]; intros Hk.
  - left. exists m; split; [reflexivity|]. split; [exact Hm|]. intros; lia.
  - destruct IH as [(m1 & Hrun & Hm1 & Hok)|Hraise]; [lia| |].
    + destruct (str_get_lt instance k) as (c & Hc); [lia|].
      assert (Hstep : for_each (range (S k)) m (body instance)
                      = (n <- getitem2 m1 (String c EmptyString) k ;;
                         setitem2 m1 (String c EmptyString) k (n + 1)%Z)).
      { rewrite range_S, for_each_app, Hrun; simpl.
        unfold body, str_get. rewrite Hc; simpl.
        destruct (getitem2 m1 (String c EmptyString) k); simpl; [|reflexivity].
        destruct (setitem2 m1 (String c EmptyString) k (a + 1)%Z); reflexivity. }
      rewrite Hstep.
      destruct (in_dec string_dec (String c EmptyString) BASES) as [Hb|Hb].
      * left.
        destruct (getitem2_row_length m1 _ k L (proj2 Hm1 _ Hb)) as (n & Hn);
          [lia|].
        rewrite Hn; simpl.
        destruct (setitem2_well_shaped L m1 _ k (n + 1)%Z Hm1 Hb)
          as (m2 & Hset & Hm2 & _); [lia|].
        rewrite Hset. exists m2; split; [reflexivity|]. split; [exact Hm2|].
        intros i c' Hi Hc'. destruct (Nat.eq_dec i k) as [->|Hne].
        -- assert (c' = c) by congruence. subst c'. exact Hb.
        -- apply (Hok i c'); [lia | exact Hc'].
      * right. unfold getitem2.
        rewrite DictFacts.get_not_in; [reflexivity|].
        rewrite (proj1 Hm1); exact Hb.
    + right. rewrite range_S, for_each_app, Hraise; reflexivity.
Qed.

Lemma count_instances_KeyError (instances : list string) :
  (forall instance, In instance instances -> String.length instance = L) ->
  (exists instance, In instance instances /\ ~ over_bases instance) ->
  forall m, well_shaped L m ->
    for_each instances m (fun count_matrix instance =>
      for_each (range (String.length instance)) count_matrix
               (body instance)) = Raise KeyError.
Proof.
  induction instances as [|x xs IH]; intros Hlen (bad & Hin & Hbad) m Hm;
    [destruct Hin|].
  simpl. rewrite (Hlen x (or_introl eq_refl)).
  destruct (count_prefix_or_KeyError x L m Hm (Hlen x (or_introl eq_refl))
              (le_n L)) as [(m1 & Hrun & Hm1 & Hok)|Hraise].
  - rewrite Hrun; simpl. apply IH; [| |exact Hm1].
    + intros y Hy; apply Hlen; right; exact Hy.
    + exists bad; split; [|exact Hbad].
      destruct Hin as [->|Hin]; [|exact Hin].
      exfalso; apply Hbad. intros i c Hc. apply (Hok i c); [|exact Hc].
      rewrite <- (Hlen bad (or_introl eq_refl)).
      eapply str_get_Some_lt; eauto.
  - rewrite Hraise; reflexivity.
Qed.
End CountUnknownBase.

(** X7: on a non-empty list of instances of one length of which at least
    one has a character other than A, T, C and G, the builder raises
    [KeyError]: no count matrix with a corrupted or missing count is
    returned. *)
Theorem unknown_base_raises_KeyError (instances : list string) (L : nat) :
  instances <> [] ->
  (forall instance, In instance instances -> String.length instance = L) ->
  (exists instance, In instance instances /\ ~ over_bases instance) ->
  instances_to_count_matrix instances = Raise KeyError.
Proof.
  intros Hne Hlen Hbad.
  destruct instances as [|first rest] eqn:Hinst; [contradiction|].
  rewrite <- Hinst in *.
  assert (Hfirst : list_get instances 0 = Ok first) by (subst; reflexivity).
  assert (HfirstL : String.length first = L)
    by (apply Hlen; subst; left; reflexivity).
  unfold instances_to_count_matrix.
  rewrite (same_length_assertion instances instances first Hfirst);
    [|intros i Hi; rewrite (Hlen i Hi); congruence].
  simpl. rewrite Hfirst; simpl. rewrite HfirstL.
  apply (count_instances_KeyError L instances Hlen Hbad).
  apply blank_matrix_well_shaped.
Qed.

Lemma unknown_base_raises_KeyError_witness :
  instances_to_count_matrix ["ACC"; "ANG"] = Raise KeyError.
Proof.
  apply (unknown_base_raises_KeyError ["ACC"; "ANG"] 3).
  - discriminate.
  - intros instance [<-|[<-|[]]]; reflexivity.
  - exists "ANG". split; [simpl; tauto|].
    intros H. specialize (H 1 "N"%char eq_refl).
    destruct H as [E|[E|[E|[E|[]]]]]; discriminate.
Defined.

(** X8: on a non-empty list of instances of length [L] written with A, T,
    C and G only, the builder returns a matrix with the four bases as keys
    and rows of length [L] in which the cell of a base at a position is the
    number of instances that have this base at this position. *)
Theorem count_matrix_cells_count_instances (instances : list string) (L : nat) :
  instances <> [] ->
  (forall instance, In instance instances -> String.length instance = L) ->
  (forall instance, In instance instances -> over_bases instance) ->
  exists count_matrix,
    instances_to_count_matrix instances = Ok count_matrix /\
    well_shaped L count_matrix /\
    forall base i, In base BASES -> i < L ->
      getitem2 count_matrix base i = Ok (count_at instances base i).
Proof. exact (instances_to_count_matrix_counts instances L). Qed.

Lemma count_matrix_cells_count_instances_witness :
  exists count_matrix,
    instances_to_count_matrix ["ACC"; "ATG"] = Ok count_matrix /\
    well_shaped 3 count_matrix /\
    forall base i, In base BASES -> i < 3 ->
      getitem2 count_matrix base i = Ok (count_at ["ACC"; "ATG"] base i).
Proof.
  apply (count_matrix_cells_count_instances ["ACC"; "ATG"] 3).
  - discriminate.
  - intros instance [<-|[<-|[]]]; reflexivity.
  - intros instance [<-|[<-|[]]] i c;
      destruct i as [|[|[|i]]]; simpl; intros E; inversion E; tauto.
Defined.

(* ================================================================= *)
(** ** Frequency matrix: relative frequencies *)

Lemma Qc_of_Z_le (a b : Z) : (a <= b)%Z -> (Qc_of_Z a <= Qc_of_Z b)%Qc.
Proof.
  intros Hab. unfold Qcle.
  change (Qred (inject_Z a) <= Qred (inject_Z b))%Q. rewrite !Qred_correct.
  rewrite <- Zle_Qle. exact Hab.
Qed.

Lemma Qcinv_nonneg (x : Qc) : (0 < x)%Qc -> (0 <= / x)%Qc.
Proof. intros Hx. apply Qclt_le_weak, Qcinv_pos, Hx. Qed.

(** A count out of [n] instances is a frequency between 0 and 1. *)
Lemma frequency_unit (k n : Z) :
  (0 <= k <= n)%Z -> (0 < n)%Z ->
  (0 <= Qc_of_Z k / Qc_of_Z n /\ Qc_of_Z k / Qc_of_Z n <= 1)%Qc.
Proof.
  intros Hk Hn. pose proof (Qc_of_Z_pos n Hn) as Hpos.
  unfold Qcdiv. split.
  - rewrite <- (Qcmult_0_l (/ Qc_of_Z n)).
    apply Qcmult_le_compat_r; [|apply Qcinv_nonneg, Hpos].
    rewrite <- Qc_of_Z_0. apply Qc_of_Z_le; lia.
  - rewrite <- (Qcmult_inv_r (Qc_of_Z n)) by (apply Qc_of_Z_nonzero; lia).
    apply Qcmult_le_compat_r; [|apply Qcinv_nonneg, Hpos].
    apply Qc_of_Z_le; lia.
Qed.

Lemma frequencies_sum (a t c g n : Z) :
  (a + t + c + g = n)%Z -> n <> 0%Z ->
  (Qc_of_Z a / Qc_of_Z n + Qc_of_Z t / Qc_of_Z n +
   Qc_of_Z c / Qc_of_Z n + Qc_of_Z g / Qc_of_Z n = 1)%Qc.
Proof.
  intros Hsum Hn. pose proof (Qc_of_Z_nonzero n Hn) as Hnz. subst n.
  rewrite !Qc_of_Z_plus in *. field. exact Hnz.
Qed.

Lemma count_at_le_total (instances : list string) (L i : nat) base :
  (forall instance, In instance instances -> String.length instance = L) ->
  (forall instance, In instance instances -> over_bases instance) ->
  i < L -> In base BASES ->
  (0 <= count_at instances base i <= Z.of_nat (List.length instances))%Z.
Proof.
  intros Hlen Hbases Hi Hb.
  pose proof (count_at_total instances L i Hlen Hbases Hi) as Htotal.
  pose proof (count_at_nonneg instances "A" i).
  pose proof (count_at_nonneg instances "T" i).
  pose proof (count_at_nonneg instances "C" i).
  pose proof (count_at_nonneg instances "G" i).
  destruct Hb as [<-|[<-|[<-|[<-|[]]]]]; lia.
Qed.

(** The frequency matrix of well-formed instances, with what the later
    stages need of it. *)
Lemma get_frequency_matrix_frequencies (instances : list string) (L : nat) :
  instances <> [] ->
  (forall instance, In instance instances -> String.length instance = L) ->
  (forall instance, In instance instances -> over_bases instance) ->
  0 < L ->
  exists frequency_matrix,
    get_frequency_matrix instances = Ok frequency_matrix /\
    well_shaped L frequency_matrix /\
    unit_cells frequency_matrix /\
    forall i, i < L ->
      exists a t c g,
        column frequency_matrix i a t c g /\ (a + t + c + g = 1)%Qc.
Proof.
  intros Hne Hlen Hbases HL.
  destruct (get_frequency_matrix_cells instances L Hne Hlen Hbases HL)
    as (fm & Hfm & Hshape & Hcells).
  assert (HN : (0 < Z.of_nat (List.length instances))%Z)
    by (destruct instances; [contradiction | simpl; lia]).
  exists fm; split; [exact Hfm|]. split; [exact Hshape|]. split.
  - intros base i x Hx.
    destruct (well_shaped_position L fm base i x Hshape Hx) as (Hb & Hi).
    rewrite (Hcells base i Hb Hi) in Hx. inversion Hx; subst x.
    apply frequency_unit; [|exact HN].
    apply (count_at_le_total instances L i base Hlen Hbases Hi Hb).
  - intros i Hi. do 4 eexists. split.
    + repeat split; apply Hcells; simpl; tauto.
    + apply frequencies_sum; [|lia].
      apply (count_at_total instances L i Hlen Hbases Hi).
Qed.

(** X9: on a non-empty list of instances of positive length [L] written
    with A, T, C and G only, [get_frequency_matrix] returns a matrix over
    the four bases with rows of length [L] whose cells are between 0 and 1
    and whose four values at each position sum exactly to 1. *)
Theorem frequency_matrix_is_a_distribution (instances : list string) (L : nat) :
  instances <> [] ->
  (forall instance, In instance instances -> String.length instance = L) ->
  (forall instance, In instance instances -> over_bases instance) ->
  0 < L ->
  exists frequency_matrix,
    get_frequency_matrix instances = Ok frequency_matrix /\
    well_shaped L frequency_matrix /\
    unit_cells frequency_matrix /\
    forall i, i < L ->
      exists a t c g,
        column frequency_matrix i a t c g /\ (a + t + c + g = 1)%Qc.
Proof. exact (get_frequency_matrix_frequencies instances L). Qed.

Lemma frequency_matrix_is_a_distribution_witness :
  exists frequency_matrix,
    get_frequency_matrix ["ACC"; "ATG"] = Ok frequency_matrix /\
    well_shaped 3 frequency_matrix /\
    unit_cells frequency_matrix /\
    forall i, i < 3 ->
      exists a t c g,
        column frequency_matrix i a t c g /\ (a + t + c + g = 1)%Qc.
Proof.
  apply (frequency_matrix_is_a_distribution ["ACC"; "ATG"] 3).
  - discriminate.
  - intros instance [<-|[<-|[]]]; reflexivity.
  - intros instance [<-|[<-|[]]] i c;
      destruct i as [|[|[|i]]]; simpl; intros E; inversion E; tauto.
  - lia.
Defined.

(* ================================================================= *)
(** ** Pseudo-count smoother: shape and failure *)

(** X10: when [add_pseudo_counts] returns, the returned matrix has exactly
    the keys A, T, C, G, in this order, and rows as long as the row of A in
    the input, whatever other keys or longer rows the input has; and the
    input has a cell for every base at every position below that length. *)
Theorem add_pseudo_counts_shape
        (frequency_matrix : Dict.t (list Qc)) (low_frequency : Qc)
        (pseudo_matrix : Dict.t (list Qc)) :
  add_pseudo_counts frequency_matrix low_frequency = Ok pseudo_matrix ->
  exists L,
    row_length frequency_matrix "A" = Ok L /\
    Dict.keys pseudo_matrix = BASES /\
    (forall base, In base BASES -> row_length pseudo_matrix base = Ok L) /\
    (forall base i, In base BASES -> i < L ->
       exists x, getitem2 frequency_matrix base i = Ok x).
Proof.
  intros Hrun.
  destruct (add_pseudo_counts_spec _ _ _ Hrun) as (L & HL & (Hkeys & Hrows) & Hcells).
  exists L. repeat split; try assumption.
  intros base i Hb Hi.
  destruct (Hcells i Hi) as (a & t & c & g & d & ((HA & HT & HC & HG) & _) & _).
  destruct Hb as [<-|[<-|[<-|[<-|[]]]]]; eauto.
Qed.

Lemma add_pseudo_counts_shape_witness :
  exists L,
    row_length example_frequency_matrix "A" = Ok L /\
    Dict.keys example_pseudo_matrix = BASES /\
    (forall base, In base BASES ->
                  row_length example_pseudo_matrix base = Ok L) /\
    (forall base i, In base BASES -> i < L ->
       exists x, getitem2 example_frequency_matrix base i = Ok x).
Proof.
  apply (add_pseudo_counts_shape example_frequency_matrix
                                 default_low_frequency).
  exact example_pseudo_counts.
Defined.

Lemma for_each_raises_inv {S X : Type} (I : S -> Prop) (P : exn -> Prop)
      (body : S -> X -> result S) (xs : list X) (x : X) (s : S) :
  I s ->
  (forall s' y, In y xs -> I s' ->
     (exists s'', body s' y = Ok s'' /\ I s'') \/
     (exists e, body s' y = Raise e /\ P e)) ->
  In x xs ->
  (forall s', I s' -> exists e, body s' x = Raise e) ->
  exists e, for_each xs s body = Raise e /\ P e.
Proof.
  intros HI Hstep Hin Hx; revert s HI.
  induction xs as [|y xs IH]; intros s HI; [destruct Hin|].
  simpl.
  destruct (Hstep s y (or_introl eq_refl) HI)
    as [(s'' & Hy & HI'')|(e & Hy & He)]; rewrite Hy; simpl.
  - destruct Hin as [->|Hin].
    + destruct (Hx s HI) as (e & He); congruence.
    + apply IH; [|exact Hin|exact HI''].
      intros s' z Hz; apply Hstep; right; exact Hz.
  - exists e; split; [reflexivity | exact He].
Qed.

Lemma position_diff_all_zero low :
  position_diff low [0; 0; 0; 0]%Qc = Raise ZeroDivisionError.
Proof. reflexivity. Qed.

Lemma position_diff_cases low a t c g :
  (exists d, position_diff low [a; t; c; g] = Ok d) \/
  (position_diff low [a; t; c; g] = Raise ZeroDivisionError /\
   a = 0%Qc /\ t = 0%Qc /\ c = 0%Qc /\ g = 0%Qc).
Proof.
  unfold position_diff, nonzero_count, zero_count, float_div_int.
  cbn [map fold_left List.length BASES].
  destruct (Qc_eq_bool a 0) eqn:Ea, (Qc_eq_bool t 0) eqn:Et,
           (Qc_eq_bool c 0) eqn:Ec, (Qc_eq_bool g 0) eqn:Eg;
    cbn -[Qc_of_Z Qcplus Qcmult Qcdiv Qcminus]; try (left; eauto; fail).
  right. apply Qc_eq_bool_true in Ea, Et, Ec, Eg. auto.
Qed.

Section PseudoCountsFailure.
Variables (frequency_matrix : Dict.t (list Qc)) (low_frequency : Qc) (L : nat).
Hypothesis Hmatrix : is_matrix L frequency_matrix.

Let body (pseudo_matrix : Dict.t (list Qc)) (i : nat) :=
  position_frequencies <-
    mapM (fun base => getitem2 frequency_matrix base i) BASES ;;
  diff <- position_diff low_frequency position_frequencies ;;
  for_each BASES pseudo_matrix (fun pseudo_matrix base =>
    base_frequency <- getitem2 frequency_matrix base i ;;
    setitem2 pseudo_matrix base i
             (if Qc_eq_bool base_frequency 0 then low_frequency
              else (base_frequency - diff)%Qc)).

Lemma is_matrix_column (i : nat) :
  i < L -> exists a t c g, column frequency_matrix i a t c g.
Proof.
  intros Hi. destruct Hmatrix as (_ & Hrows).
  destruct (getitem2_row_length frequency_matrix "A" i L) as (a & HA);
    [apply Hrows; simpl; tauto | exact Hi |].
  destruct (getitem2_row_length frequency_matrix "T" i L) as (t & HT);
    [apply Hrows; simpl; tauto | exact Hi |].
  destruct (getitem2_row_length frequency_matrix "C" i L) as (c & HC);
    [apply Hrows; simpl; tauto | exact Hi |].
  destruct (getitem2_row_length frequency_matrix "G" i L) as (g & HG);
    [apply Hrows; simpl; tauto | exact Hi |].
  exists a, t, c, g. repeat split; assumption.
Qed.

Lemma pseudo_body_raises pm i a t c g :
  column frequency_matrix i a t c g ->
  position_diff low_frequency [a; t; c; g] = Raise ZeroDivisionError ->
  body pm i = Raise ZeroDivisionError.
Proof.
  intros (HA & HT & HC & HG) Hd. unfold body, BASES; simpl.
  rewrite HA; simpl. rewrite HT; simpl. rewrite HC; simpl. rewrite HG; simpl.
  rewrite Hd; reflexivity.
Qed.

Lemma add_pseudo_counts_all_zero_position (i : nat) :
  i < L -> column frequency_matrix i 0%Qc 0%Qc 0%Qc 0%Qc ->
  add_pseudo_counts frequency_matrix low_frequency = Raise ZeroDivisionError.
Proof.
  intros Hi Hzero. unfold add_pseudo_counts, BASES; simpl.
  assert (HA : row_length frequency_matrix "A" = Ok L)
    by (apply (proj2 Hmatrix); simpl; tauto).
  unfold row_length in HA. bind_inv HA. rename a into rowA.
  rewrite Ha; simpl. inversion HA as [HL].
  match goal with
  | |- for_each ?xs ?s ?b = _ =>
      destruct (for_each_raises_inv (well_shaped L)
                  (fun e => e = ZeroDivisionError) b xs i s)
        as (e & He & ->); [| | | | exact He]
  end.
  - rewrite HL. apply (blank_matrix_well_shaped 0%Qc).
  - intros pm j Hj Hpm. rewrite HL in Hj. apply in_range in Hj.
    destruct (is_matrix_column j Hj) as (a & t & c & g & Hcol).
    destruct (position_diff_cases low_frequency a t c g)
      as [(d & Hd)|(Hd & _)].
    + left.
      destruct (pseudo_body_spec frequency_matrix low_frequency pm j L
                  a t c g d (conj Hcol Hd) Hpm Hj) as (pm' & Hrun & Hpm' & _).
      exists pm'; split; assumption.
    + right. exists ZeroDivisionError; split; [|reflexivity].
      exact (pseudo_body_raises pm j a t c g Hcol Hd).
  - rewrite HL. apply in_range; exact Hi.
  - intros pm _. exists ZeroDivisionError.
    apply (pseudo_body_raises pm i _ _ _ _ Hzero).
    apply position_diff_all_zero.
Qed.

Lemma add_pseudo_counts_no_zero_position :
  (forall i, ~ column frequency_matrix i 0%Qc 0%Qc 0%Qc 0%Qc) ->
  exists pm, add_pseudo_counts frequency_matrix low_frequency = Ok pm /\
             well_shaped L pm /\
             forall i, i < L ->
               pseudo_position frequency_matrix low_frequency pm i.
Proof.
  intros Hnz. apply add_pseudo_counts_succeeds.
  - apply (proj2 Hmatrix); simpl; tauto.
  - intros i Hi. destruct (is_matrix_column i Hi) as (a & t & c & g & Hcol).
    destruct (position_diff_cases low_frequency a t c g)
      as [(d & Hd)|(_ & -> & -> & -> & ->)].
    + exists a, t, c, g, d; split; assumption.
    + exfalso; exact (Hnz i Hcol).
Qed.
End PseudoCountsFailure.

(** X11: on a matrix over the four bases with rows of length [L],
    [add_pseudo_counts] raises [ZeroDivisionError] when the four values of
    some position are all 0, and returns a matrix when no position has four
    zeros; it fails in no other way. *)
Theorem add_pseudo_counts_fails_on_empty_position
        (frequency_matrix : Dict.t (list Qc)) (low_frequency : Qc) (L : nat) :
  is_matrix L frequency_matrix ->
  ((exists i, i < L /\ column frequency_matrix i 0%Qc 0%Qc 0%Qc 0%Qc) ->
   add_pseudo_counts frequency_matrix low_frequency = Raise ZeroDivisionError)
  /\
  ((forall i, ~ column frequency_matrix i 0%Qc 0%Qc 0%Qc 0%Qc) ->
   exists pseudo_matrix,
     add_pseudo_counts frequency_matrix low_frequency = Ok pseudo_matrix).
Proof.
  intros Hmatrix. split.
  - intros (i & Hi & Hzero).
    exact (add_pseudo_counts_all_zero_position
             frequency_matrix low_frequency L Hmatrix i Hi Hzero).
  - intros Hnz.
    destruct (add_pseudo_counts_no_zero_position
                frequency_matrix low_frequency L Hmatrix Hnz) as (pm & Hpm & _).
    eauto.
Qed.

Lemma add_pseudo_counts_fails_on_empty_position_witness :
  ((exists i, i < 2 /\ column example_frequency_matrix i 0%Qc 0%Qc 0%Qc 0%Qc) ->
   add_pseudo_counts example_frequency_matrix default_low_frequency
   = Raise ZeroDivisionError)
  /\
  ((forall i, ~ column example_frequency_matrix i 0%Qc 0%Qc 0%Qc 0%Qc) ->
   exists pseudo_matrix,
     add_pseudo_counts example_frequency_matrix default_low_frequency
     = Ok pseudo_matrix).
Proof.
  apply (add_pseudo_counts_fails_on_empty_position
           example_frequency_matrix default_low_frequency 2).
  exact example_frequency_matrix_is_matrix.
Defined.

(* ================================================================= *)
(** ** Log-scoring matrix converter: domain and scores *)

Lemma math_log_raise (x : R) (e : exn) : math_log x = Raise e -> e = ValueError.
Proof. unfold math_log. destruct (Rlt_dec 0 x); congruence. Qed.

Lemma math_log_nonpositive (x : R) : (x <= 0)%R -> math_log x = Raise ValueError.
Proof.
  intros Hx. unfold math_log. destruct (Rlt_dec 0 x); [lra | reflexivity].
Qed.

Lemma mapM_raises {X Y : Type} (P : exn -> Prop) (f : X -> result Y)
      (xs : list X) (x : X) :
  (forall y e, f y = Raise e -> P e) ->
  In x xs -> (exists e, f x = Raise e) ->
  exists e, mapM f xs = Raise e /\ P e.
Proof.
  intros HP Hin Hx. induction xs as [|y xs IH]; [destruct Hin|].
  simpl. destruct (f y) as [v|e] eqn:Hy; simpl.
  - destruct Hin as [->|Hin]; [destruct Hx; congruence|].
    destruct (IH Hin) as (e & He & HPe). rewrite He; simpl. eauto.
  - exists e; split; [reflexivity | eapply HP; eauto].
Qed.

Lemma freq_to_log_matrix_raises
      (frequency_matrix : Dict.t (list R)) (base : string) (row : list R)
      (x : R) :
  In (base, row) frequency_matrix -> In x row -> (x <= 0)%R ->
  freq_to_log_matrix frequency_matrix = Raise ValueError.
Proof.
  intros Hrow Hx Hle. unfold freq_to_log_matrix, Dict.items.
  assert (Hlog : forall y e, (l <- math_log y ;; Ok (- l)%R) = Raise e ->
                             e = ValueError).
  { intros y e H. apply bind_Raise_inv in H.
    destruct H as [H|(l & _ & H)]; [|discriminate].
    eapply math_log_raise; eauto. }
  match goal with
  | |- for_each ?xs ?s ?b = _ =>
      destruct (for_each_raises (fun e => e = ValueError) b xs (base, row) s)
        as (e & He & ->); [| exact Hrow | | exact He]
  end.
  - intros lm [k r] e H. apply bind_Raise_inv in H.
    destruct H as [H|(r' & _ & H)]; [|discriminate].
    eapply (mapM_raise_P (fun e => e = ValueError)); [exact Hlog | exact H].
  - intros lm.
    destruct (mapM_raises (fun e => e = ValueError)
                (fun i => l <- math_log i ;; Ok (- l)%R) row x Hlog Hx)
      as (e & He & ->).
    + exists ValueError. rewrite (math_log_nonpositive x Hle); reflexivity.
    + exists ValueError. rewrite He; reflexivity.
Qed.

(** X12: when some cell of the matrix is 0 or negative,
    [freq_to_log_matrix] raises [ValueError] and returns no matrix. *)
Theorem freq_to_log_matrix_domain_error
        (frequency_matrix : Dict.t (list R)) (base : string) (row : list R)
        (x : R) :
  In (base, row) frequency_matrix -> In x row -> (x <= 0)%R ->
  freq_to_log_matrix frequency_matrix = Raise ValueError.
Proof. exact (freq_to_log_matrix_raises frequency_matrix base row x). Qed.

Lemma freq_to_log_matrix_domain_error_witness :
  freq_to_log_matrix example_real_frequency_matrix = Raise ValueError.
Proof.
  apply (freq_to_log_matrix_domain_error
           example_real_frequency_matrix "G" [0; 0]%R 0%R).
  - simpl; tauto.
  - simpl; tauto.
  - lra.
Defined.

Lemma path_cells_map_cells {V W : Type} (g : V -> W) (str : string)
      (m : Dict.t (list V)) :
  path_cells str (map_cells g m)
  = (cells <- path_cells str m ;; Ok (map g cells)).
Proof.
  unfold path_cells. induction (range (String.length str)) as [|i xs IH];
    simpl; [reflexivity|].
  destruct (str_get str i) as [base|e]; simpl; [|reflexivity].
  unfold map_cells at 1. rewrite getitem2_map_rows.
  destruct (getitem2 m base i) as [x|e]; simpl; [|reflexivity].
  rewrite IH.
  destruct (mapM (fun i => base <- str_get str i ;; getitem2 m base i) xs);
    reflexivity.
Qed.

Lemma path_cells_positive (str : string) (m : Dict.t (list R)) (cells : list R) :
  positive_cells m -> path_cells str m = Ok cells ->
  forall x, In x cells -> (0 < x)%R.
Proof.
  intros Hpos Hcells x Hx. apply (mapM_In _ _ _ x Hcells) in Hx.
  destruct Hx as (i & _ & Hi). bind_inv Hi. eapply Hpos; eauto.
Qed.

Lemma fold_left_Rmult_positive (cells : list R) (p : R) :
  (0 < p)%R -> (forall x, In x cells -> (0 < x)%R) ->
  (0 < fold_left Rmult cells p)%R.
Proof.
  revert p; induction cells as [|x cells IH]; intros p Hp Hall; simpl;
    [exact Hp|].
  apply IH; [|intros y Hy; apply Hall; right; exact Hy].
  apply Rmult_lt_0_compat; [exact Hp | apply Hall; left; reflexivity].
Qed.

(** The sum of the negated logarithms is the negated logarithm of the
    product. *)
Lemma fold_left_neg_ln (cells : list R) (p : R) :
  (0 < p)%R -> (forall x, In x cells -> (0 < x)%R) ->
  fold_left Rplus (map (fun x => (- ln x)%R) cells) (- ln p)%R
  = (- ln (fold_left Rmult cells p))%R.
Proof.
  revert p; induction cells as [|x cells IH]; intros p Hp Hall; simpl;
    [reflexivity|].
  assert (Hx : (0 < x)%R) by (apply Hall; left; reflexivity).
  rewrite <- IH.
  - f_equal. rewrite ln_mult by assumption. ring.
  - apply Rmult_lt_0_compat; assumption.
  - intros y Hy; apply Hall; right; exact Hy.
Qed.

Lemma log_score_of_product (pseudo_matrix : Dict.t (list R)) (str : string)
      (product : R) :
  positive_cells pseudo_matrix ->
  score_pssm str pseudo_matrix = Ok product ->
  (0 < product)%R /\
  score_pssm_log str (map_cells (fun x => (- ln x)%R) pseudo_matrix)
  = Ok (- ln product)%R.
Proof.
  intros Hpos Hscore. rewrite score_pssm_fold in Hscore. bind_inv Hscore.
  inversion Hscore; subst product. rename a into cells.
  pose proof (path_cells_positive str pseudo_matrix cells Hpos Ha) as Hall.
  change (@num_mul R Number_R) with Rmult.
  change (@num_one R Number_R) with 1%R. split.
  - apply fold_left_Rmult_positive; [lra | exact Hall].
  - rewrite score_pssm_log_fold, path_cells_map_cells, Ha; simpl. f_equal.
    change (@num_add R Number_R) with Rplus.
    change (@num_zero R Number_R) with 0%R.
    rewrite <- (fold_left_neg_ln cells 1%R) by (lra || exact Hall).
    rewrite ln_1, Ropp_0. reflexivity.
Qed.

(** X13: in exact real arithmetic, for a matrix with strictly positive
    cells, the log-sum score of a string against its log matrix is the
    negated natural logarithm of the product score of the string against
    the matrix itself, which is strictly positive. *)
Theorem log_score_is_negated_log_of_product
        (pseudo_matrix : Dict.t (list R)) (str : string) (product : R) :
  NoDup (Dict.keys pseudo_matrix) ->
  positive_cells pseudo_matrix ->
  score_pssm str pseudo_matrix = Ok product ->
  (0 < product)%R /\
  exists log_matrix,
    freq_to_log_matrix pseudo_matrix = Ok log_matrix /\
    score_pssm_log str log_matrix = Ok (- ln product)%R.
Proof.
  intros Hnd Hpos Hscore.
  destruct (log_score_of_product pseudo_matrix str product Hpos Hscore)
    as (Hp & Hlog).
  split; [exact Hp|]. eexists; split.
  - apply freq_to_log_matrix_positive; assumption.
  - exact Hlog.
Qed.

Lemma log_score_is_negated_log_of_product_witness :
  (0 < 1 * 0.7 * 0.4)%R /\
  exists log_matrix,
    freq_to_log_matrix example_real_matrix = Ok log_matrix /\
    score_pssm_log "AT" log_matrix = Ok (- ln (1 * 0.7 * 0.4))%R.
Proof.
  apply (log_score_is_negated_log_of_product example_real_matrix "AT").
  - apply NoDup_BASES.
  - exact example_real_matrix_positive.
  - reflexivity.
Defined.

(* ================================================================= *)
(** ** The log pipeline: when the smoothed frequencies have a logarithm *)

Lemma this_Qcdiv (x y : Qc) : (this (x / y)%Qc == this x / this y)%Q.
Proof.
  unfold Qcdiv, Qcmult, Qcinv. cbn [this Q2Qc].
  rewrite !Qred_correct. reflexivity.
Qed.

Lemma this_Qc_of_Z (z : Z) : (this (Qc_of_Z z) == inject_Z z)%Q.
Proof. unfold Qc_of_Z. cbn [this Q2Qc]. apply Qred_correct. Qed.

Lemma frequency_lower_bound (k n : Z) :
  (1 <= k)%Z -> (0 < n <= 9)%Z ->
  (Q2Qc (1 # 9) <= Qc_of_Z k / Qc_of_Z n)%Qc.
Proof.
  intros Hk Hn. unfold Qcle. rewrite this_Qcdiv, !this_Qc_of_Z.
  cbn [this Q2Qc]. rewrite Qred_correct.
  apply Qle_shift_div_l.
  - unfold Qlt; simpl. lia.
  - unfold Qle, Qmult, inject_Z; destruct n; simpl; lia.
Qed.

Lemma Qcminus_pos (x d : Qc) : (d < x)%Qc -> (0 < x - d)%Qc.
Proof. intros H. unfold Qcminus. apply Qclt_minus_iff in H. exact H. Qed.

Lemma Qc2R_pos (q : Qc) : (0 < q)%Qc -> (0 < Qc2R q)%R.
Proof.
  intros Hq. unfold Qc2R. unfold Qclt, Qlt in Hq. simpl in Hq.
  apply Rdiv_lt_0_compat; apply IZR_lt; lia.
Qed.

Lemma Qc2R_nonpos (q : Qc) : (q <= 0)%Qc -> (Qc2R q <= 0)%R.
Proof.
  intros Hq. unfold Qc2R. unfold Qcle, Qle in Hq. simpl in Hq.
  assert (H1 : (IZR (Qnum q) <= 0)%R) by (apply IZR_le; lia).
  assert (H2 : (0 < IZR (Z.pos (Qden q)))%R) by (apply IZR_lt; lia).
  unfold Rdiv. apply Rinv_0_lt_compat in H2.
  nra.
Qed.

Ltac qc_lt := unfold Qclt; vm_compute; reflexivity.

(** With the default floor, frequencies that are 0 or at least 1/9 and sum
    to 1 are smoothed into strictly positive values. *)
Lemma pseudo_positive_of_coarse_frequencies (a t c g d : Qc) :
  (a = 0 \/ Q2Qc (1 # 9) <= a)%Qc -> (t = 0 \/ Q2Qc (1 # 9) <= t)%Qc ->
  (c = 0 \/ Q2Qc (1 # 9) <= c)%Qc -> (g = 0 \/ Q2Qc (1 # 9) <= g)%Qc ->
  (a + t + c + g = 1)%Qc ->
  position_diff default_low_frequency [a; t; c; g] = Ok d ->
  (0 < pseudo default_low_frequency d a /\
   0 < pseudo default_low_frequency d t /\
   0 < pseudo default_low_frequency d c /\
   0 < pseudo default_low_frequency d g)%Qc.
Proof.
  intros Ha Ht Hc Hg Hsum.
  unfold position_diff, nonzero_count, zero_count, pseudo, float_div_int.
  cbn [map fold_left List.length BASES].
  destruct (Qc_eq_bool a 0) eqn:Ea, (Qc_eq_bool t 0) eqn:Et,
           (Qc_eq_bool c 0) eqn:Ec, (Qc_eq_bool g 0) eqn:Eg;
  cbn -[Qc_of_Z Qcplus Qcmult Qcdiv Qcminus default_low_frequency];
  intros Hd; try discriminate; inversion Hd; subst d; clear Hd;
  repeat match goal with
         | H : Qc_eq_bool _ _ = true |- _ => apply Qc_eq_bool_true in H; subst
         | H : Qc_eq_bool ?x _ = false |- _ => apply Qc_eq_bool_false in H
         end;
  repeat match goal with
         | H : ?x = 0%Qc \/ _, N : ?x <> 0%Qc |- _ =>
             destruct H as [H|H]; [contradiction|]
         end;
  repeat split;
  first [ qc_lt
        | apply Qcminus_pos; eapply Qclt_le_trans; [|eassumption]; qc_lt
        | match goal with
          | |- (0 < ?x - _)%Qc =>
              assert (x = 1%Qc) by (rewrite <- Hsum; ring); subst x; qc_lt
          end ].
Qed.

Lemma frequency_zero_or_coarse (k n : Z) :
  (0 <= k)%Z -> (0 < n <= 9)%Z ->
  (Qc_of_Z k / Qc_of_Z n = 0 \/ Q2Qc (1 # 9) <= Qc_of_Z k / Qc_of_Z n)%Qc.
Proof.
  intros Hk Hn. destruct (Z.eq_dec k 0) as [->|Hne].
  - left. rewrite Qc_of_Z_0. unfold Qcdiv. apply Qcmult_0_l.
  - right. apply frequency_lower_bound; lia.
Qed.

Lemma getitem2_In {V : Type} (m : Dict.t (list V)) base i (x : V) :
  getitem2 m base i = Ok x -> exists row, In (base, row) m /\ In x row.
Proof.
  unfold getitem2; intros H. bind_inv H. exists a; split.
  - apply DictFacts.get_In; exact Ha.
  - apply list_get_Ok in H. eapply nth_error_In; eauto.
Qed.

Lemma map_cells_In {V W : Type} (g : V -> W) (m : Dict.t (list V)) base row :
  In (base, row) m -> In (base, map g row) (map_cells g m).
Proof.
  intros H. unfold map_cells.
  apply (in_map (fun '(b, r) => (b, map g r))) in H. exact H.
Qed.

Lemma map_cells_well_shaped {V W : Type} (g : V -> W) (L : nat)
      (m : Dict.t (list V)) :
  well_shaped L m -> well_shaped L (map_cells g m).
Proof.
  intros (Hkeys & Hrows). unfold map_cells. split.
  - rewrite keys_map_values; exact Hkeys.
  - intros base Hb. rewrite row_length_map_rows. apply Hrows, Hb.
Qed.

(** The smoothed matrix of at most nine well-formed instances has strictly
    positive cells. *)
Lemma smoothed_frequencies_positive (instances : list string) (L : nat) :
  instances <> [] -> List.length instances <= 9 ->
  (forall instance, In instance instances -> String.length instance = L) ->
  (forall instance, In instance instances -> over_bases instance) ->
  0 < L ->
  exists frequency_matrix pseudo_matrix,
    get_frequency_matrix instances = Ok frequency_matrix /\
    add_pseudo_counts frequency_matrix default_low_frequency = Ok pseudo_matrix /\
    well_shaped L pseudo_matrix /\
    forall base i x, getitem2 pseudo_matrix base i = Ok x -> (0 < x)%Qc.
Proof.
  intros Hne Hnine Hlen Hbases HL.
  destruct (get_frequency_matrix_cells instances L Hne Hlen Hbases HL)
    as (fm & Hfm & Hshape & Hcells).
  destruct (get_frequency_matrix_frequencies instances L Hne Hlen Hbases HL)
    as (fm' & Hfm' & _ & _ & Hsum).
  replace fm' with fm in * by congruence. clear Hfm'.
  assert (HN : (0 < Z.of_nat (List.length instances) <= 9)%Z)
    by (destruct instances; [contradiction | simpl in *; lia]).
  assert (Hcoarse : forall base i x, In base BASES -> i < L ->
            getitem2 fm base i = Ok x ->
            (x = 0 \/ Q2Qc (1 # 9) <= x)%Qc).
  { intros base i x Hb Hi Hx. rewrite (Hcells base i Hb Hi) in Hx.
    inversion Hx; subst x. apply frequency_zero_or_coarse; [|exact HN].
    apply count_at_nonneg. }
  assert (Hmatrix : is_matrix L fm).
  { destruct Hshape as (Hkeys & Hrows).
    split; [rewrite Hkeys; apply Permutation_refl | exact Hrows]. }
  destruct (add_pseudo_counts_no_zero_position fm default_low_frequency L Hmatrix)
    as (pm & Hpm & Hpshape & Hpcells).
  { intros i Hzero.
    assert (Hi : i < L)
      by (apply (well_shaped_position L fm "A" i 0%Qc Hshape), Hzero).
    destruct (Hsum i Hi) as (a & t & c & g & Hcol & H1).
    destruct (column_functional _ _ _ _ _ _ _ _ _ _ Hcol Hzero)
      as (-> & -> & -> & ->).
    apply (f_equal this) in H1. discriminate. }
  exists fm, pm. split; [exact Hfm|]. split; [exact Hpm|].
  split; [exact Hpshape|].
  intros base i x Hx.
  destruct (well_shaped_position L pm base i x Hpshape Hx) as (Hb & Hi).
  destruct (Hpcells i Hi)
    as (a & t & c & g & d & (Hcol & Hd) & (PA & PT & PC & PG)).
  destruct (Hsum i Hi) as (a' & t' & c' & g' & Hcol' & H1).
  destruct (column_functional _ _ _ _ _ _ _ _ _ _ Hcol Hcol')
    as (<- & <- & <- & <-).
  destruct Hcol as (FA & FT & FC & FG).
  destruct (pseudo_positive_of_coarse_frequencies a t c g d)
    as (HpA & HpT & HpC & HpG); try assumption;
    try (eapply Hcoarse; [| exact Hi | eassumption]; simpl; tauto).
  destruct Hb as [<-|[<-|[<-|[<-|[]]]]]; congruence.
Qed.

Lemma keyed_loop_succeeds {V : Type} (F : string -> result V) (xs : list string) :
  (forall x, In x xs -> exists v, F x = Ok v) ->
  forall acc : Dict.t V,
  exists sd, for_each xs acc (fun score_dict motif =>
               s <- F motif ;; Ok (Dict.set score_dict motif s)) = Ok sd.
Proof.
  induction xs as [|x xs IH]; intros HF acc; simpl; [eauto|].
  destruct (HF x (or_introl eq_refl)) as (v & Hv). rewrite Hv; simpl.
  apply IH. intros y Hy; apply HF; right; exact Hy.
Qed.

Lemma log_pipeline_returns (instances : list string) (L : nat) :
  instances <> [] -> List.length instances <= 9 ->
  (forall instance, In instance instances -> String.length instance = L) ->
  (forall instance, In instance instances -> over_bases instance) ->
  0 < L ->
  (exists log_matrix,
      get_scoring_matrix instances = Ok log_matrix /\
      well_shaped L log_matrix) /\
  (exists score_dict, get_motifs_score instances = Ok score_dict) /\
  (exists total, get_total_motifs_score instances = Ok total).
Proof.
  intros Hne Hnine Hlen Hbases HL.
  destruct (smoothed_frequencies_positive instances L Hne Hnine Hlen Hbases HL)
    as (fm & pm & Hfm & Hpm & Hshape & Hpos).
  assert (Hlog : get_scoring_matrix instances
                 = Ok (map_cells (fun x => (- ln x)%R) (map_cells Qc2R pm))).
  { unfold get_scoring_matrix. rewrite Hfm; simpl. rewrite Hpm; simpl.
    rewrite freq_to_log_matrix_positive; [reflexivity | |].
    - unfold map_cells. rewrite keys_map_values, (proj1 Hshape).
      apply NoDup_BASES.
    - intros base i x Hx. unfold map_cells in Hx.
      rewrite getitem2_map_rows in Hx. bind_inv Hx. inversion Hx; subst x.
      apply Qc2R_pos. eapply Hpos; eauto. }
  assert (Hlshape : well_shaped L
            (map_cells (fun x => (- ln x)%R) (map_cells Qc2R pm)))
    by (apply map_cells_well_shaped, map_cells_well_shaped, Hshape).
  assert (Hscores : exists sd, get_motifs_score instances = Ok sd).
  { unfold get_motifs_score. rewrite Hlog; simpl.
    apply keyed_loop_succeeds. intros motif Hin.
    destruct (path_cells_succeeds motif _ L (proj2 Hlshape) (Hbases motif Hin))
      as (cells & Hcells); [rewrite (Hlen motif Hin); lia|].
    rewrite score_pssm_log_fold, Hcells; simpl; eauto. }
  split; [eauto|]. split; [exact Hscores|].
  destruct Hscores as (sd & Hsd). unfold get_total_motifs_score.
  rewrite Hsd; simpl; eauto.
Qed.

(** X14: for a non-empty list of at most nine instances of positive length
    [L] written with A, T, C and G only, the log pipeline goes through:
    [get_scoring_matrix] returns a log matrix over the four bases with rows
    of length [L], and [get_motifs_score] and [get_total_motifs_score]
    return. *)
Theorem log_pipeline_returns_up_to_nine_instances
        (instances : list string) (L : nat) :
  instances <> [] -> List.length instances <= 9 ->
  (forall instance, In instance instances -> String.length instance = L) ->
  (forall instance, In instance instances -> over_bases instance) ->
  0 < L ->
  (exists log_matrix,
      get_scoring_matrix instances = Ok log_matrix /\
      well_shaped L log_matrix) /\
  (exists score_dict, get_motifs_score instances = Ok score_dict) /\
  (exists total, get_total_motifs_score instances = Ok total).
Proof. exact (log_pipeline_returns instances L). Qed.

Lemma log_pipeline_returns_up_to_nine_instances_witness :
  (exists log_matrix,
      get_scoring_matrix ["ACC"; "ATG"] = Ok log_matrix /\
      well_shaped 3 log_matrix) /\
  (exists score_dict, get_motifs_score ["ACC"; "ATG"] = Ok score_dict) /\
  (exists total, get_total_motifs_score ["ACC"; "ATG"] = Ok total).
Proof.
  apply (log_pipeline_returns_up_to_nine_instances ["ACC"; "ATG"] 3).
  - discriminate.
  - simpl; lia.
  - intros instance [<-|[<-|[]]]; reflexivity.
  - intros instance [<-|[<-|[]]] i c;
      destruct i as [|[|[|i]]]; simpl; intros E; inversion E; tauto.
  - lia.
Defined.

(** X15: when the smoothed frequency matrix of the instances has a cell
    that is 0 or negative (a non-zero frequency no larger than the tax of
    its position), [get_scoring_matrix] raises [ValueError]; ten instances
    of which one has A and nine have T at a position are such an input. *)
Theorem log_pipeline_domain_error
        (instances : list string)
        (frequency_matrix pseudo_matrix : Dict.t (list Qc))
        (base : string) (i : nat) (x : Qc) :
  get_frequency_matrix instances = Ok frequency_matrix ->
  add_pseudo_counts frequency_matrix default_low_frequency = Ok pseudo_matrix ->
  getitem2 pseudo_matrix base i = Ok x -> (x <= 0)%Qc ->
  get_scoring_matrix instances = Raise ValueError /\
  get_motifs_score instances = Raise ValueError /\
  get_total_motifs_score instances = Raise ValueError.
Proof.
  intros Hfm Hpm Hx Hle.
  assert (Hlog : get_scoring_matrix instances = Raise ValueError).
  { unfold get_scoring_matrix. rewrite Hfm; simpl. rewrite Hpm; simpl.
    destruct (getitem2_In pseudo_matrix base i x Hx) as (row & Hrow & Hin).
    rewrite (freq_to_log_matrix_raises (map_cells Qc2R pseudo_matrix)
               base (map Qc2R row) (Qc2R x)); [reflexivity | | |].
    - apply map_cells_In; exact Hrow.
    - apply in_map; exact Hin.
    - apply Qc2R_nonpos; exact Hle. }
  split; [exact Hlog|].
  unfold get_total_motifs_score, get_motifs_score. rewrite Hlog.
  split; reflexivity.
Qed.

Lemma log_pipeline_domain_error_witness :
  get_scoring_matrix skewed_instances = Raise ValueError /\
  get_motifs_score skewed_instances = Raise ValueError /\
  get_total_motifs_score skewed_instances = Raise ValueError.
Proof.
  apply (log_pipeline_domain_error skewed_instances
           skewed_frequency_matrix skewed_pseudo_matrix "A" 0 (flt 0.0)).
  - result_eq.
  - result_eq.
  - reflexivity.
  - discriminate.
Defined.

(* ================================================================= *)
(** ** The reports: one entry per distinct motif *)

Lemma keys_set_In {V : Type} (d : Dict.t V) (k k' : string) (v : V) :
  In k' (Dict.keys (Dict.set d k v)) <-> k' = k \/ In k' (Dict.keys d).
Proof.
  induction d as [|[k0 v0] d IH]; simpl.
  - intuition congruence.
  - destruct (String.eqb_spec k k0) as [->|Hne]; simpl.
    + intuition congruence.
    + rewrite IH. intuition congruence.
Qed.

Lemma NoDup_keys_set {V : Type} (d : Dict.t V) (k : string) (v : V) :
  NoDup (Dict.keys d) -> NoDup (Dict.keys (Dict.set d k v)).
Proof.
  induction d as [|[k0 v0] d IH]; simpl; intros Hnd.
  - constructor; [intros [] | constructor].
  - inversion Hnd as [|? ? Hfresh Hnd']; subst.
    destruct (String.eqb_spec k k0) as [->|Hne]; simpl.
    + constructor; assumption.
    + constructor; [|apply IH; exact Hnd'].
      intros Hin. apply keys_set_In in Hin.
      destruct Hin as [E|Hin]; [congruence | contradiction].
Qed.

Section KeyedLoop.
Context {V : Type}.
Variable F : string -> result V.

Let body (score_dict : Dict.t V) (motif : string) :=
  s <- F motif ;; Ok (Dict.set score_dict motif s).

(** A report loop [for motif in motifs: score_dict[motif] = F motif] that
    returns has bound each motif once, to its score. *)
Lemma keyed_loop_spec (xs : list string) (acc sd : Dict.t V) :
  for_each xs acc body = Ok sd ->
  NoDup (Dict.keys acc) ->
  NoDup (Dict.keys sd) /\
  (forall k, In k (Dict.keys sd) <-> In k (Dict.keys acc) \/ In k xs) /\
  (forall k, In k xs -> Dict.get sd k = F k) /\
  (forall k, ~ In k xs -> Dict.get sd k = Dict.get acc k) /\
  (forall v, In v (Dict.values sd) ->
             In v (Dict.values acc) \/ exists k, In k xs /\ F k = Ok v).
Proof.
  revert acc; induction xs as [|x xs IH]; intros acc Hrun Hnd.
  - simpl in Hrun. inversion Hrun; subst sd.
    split; [exact Hnd|]. split; [intros k; simpl; tauto|].
    split; [intros k []|]. split; [reflexivity|].
    intros v Hv; left; exact Hv.
  - simpl in Hrun. bind_inv Hrun. unfold body in Ha. bind_inv Ha.
    inversion Ha; subst a. rename a0 into v0.
    destruct (IH _ Hrun (NoDup_keys_set acc x v0 Hnd))
      as (Hnd' & Hkeys & Hin & Hout & Hvals).
    split; [exact Hnd'|]. split; [|split; [|split]].
    + intros k. rewrite Hkeys, keys_set_In. simpl.
      split; [intros [[E|H]|H] | intros [H|[E|H]]]; auto.
    + intros k Hk. destruct (in_dec string_dec k xs) as [Hkx|Hkx].
      * apply Hin, Hkx.
      * destruct Hk as [->|Hk]; [|contradiction].
        rewrite (Hout k Hkx), DictFacts.get_set_eq. congruence.
    + intros k Hk. rewrite Hout by (intros H; apply Hk; right; exact H).
      apply DictFacts.get_set_ne. intros E; apply Hk; left; exact E.
    + intros v Hv. destruct (Hvals v Hv) as [Hold|(k & Hk & HFk)].
      * apply DictFacts.values_set in Hold.
        destruct Hold as [->|Hold]; [|left; exact Hold].
        right. exists x; split; [left; reflexivity | exact Ha0].
      * right. exists k; split; [right; exact Hk | exact HFk].
Qed.
End KeyedLoop.

(** X16: the mapping returned by [get_motifs_percentage] has exactly the
    motifs as keys, each once however often it occurs in the list, and
    binds each motif to its [score_pssm] against the frequency matrix of
    the whole list. *)
Theorem motifs_percentage_entries
        (motifs : list string) (score_dict : Dict.t Qc) :
  get_motifs_percentage motifs = Ok score_dict ->
  exists frequency_matrix,
    get_frequency_matrix motifs = Ok frequency_matrix /\
    NoDup (Dict.keys score_dict) /\
    (forall k, In k (Dict.keys score_dict) <-> In k motifs) /\
    (forall motif, In motif motifs ->
       Dict.get score_dict motif = score_pssm motif frequency_matrix).
Proof.
  unfold get_motifs_percentage. intros H. bind_inv H. exists a.
  split; [exact Ha|].
  destruct (keyed_loop_spec (fun motif => score_pssm motif a)
              motifs Dict.empty score_dict H (NoDup_nil _))
    as (Hnd & Hkeys & Hin & _).
  split; [exact Hnd|]. split; [|exact Hin].
  intros k. rewrite Hkeys. simpl. tauto.
Qed.

(** X17: the mapping returned by [get_motifs_score] has exactly the motifs
    as keys, each once, and binds each motif to its [score_pssm_log]
    against the log matrix of the whole list. *)
Theorem motifs_score_entries
        (motifs : list string) (score_dict : Dict.t R) :
  get_motifs_score motifs = Ok score_dict ->
  exists log_matrix,
    get_scoring_matrix motifs = Ok log_matrix /\
    NoDup (Dict.keys score_dict) /\
    (forall k, In k (Dict.keys score_dict) <-> In k motifs) /\
    (forall motif, In motif motifs ->
       Dict.get score_dict motif = score_pssm_log motif log_matrix).
Proof.
  unfold get_motifs_score. intros H. bind_inv H. exists a.
  split; [exact Ha|].
  destruct (keyed_loop_spec (fun motif => score_pssm_log motif a)
              motifs Dict.empty score_dict H (NoDup_nil _))
    as (Hnd & Hkeys & Hin & _).
  split; [exact Hnd|]. split; [|exact Hin].
  intros k. rewrite Hkeys. simpl. tauto.
Qed.

Lemma motifs_percentage_entries_witness :
  exists frequency_matrix,
    get_frequency_matrix ["ACC"; "ATG"; "ACC"] = Ok frequency_matrix /\
    NoDup (Dict.keys [("ACC", flt (4 # 9)); ("ATG", flt (1 # 9))]) /\
    (forall k, In k (Dict.keys [("ACC", flt (4 # 9)); ("ATG", flt (1 # 9))])
               <-> In k ["ACC"; "ATG"; "ACC"]) /\
    (forall motif, In motif ["ACC"; "ATG"; "ACC"] ->
       Dict.get [("ACC", flt (4 # 9)); ("ATG", flt (1 # 9))] motif
       = score_pssm motif frequency_matrix).
Proof.
  apply (motifs_percentage_entries ["ACC"; "ATG"; "ACC"]).
  result_eq.
Defined.

Lemma over_bases_ACC_ATG instance :
  In instance ["ACC"; "ATG"] -> over_bases instance.
Proof.
  intros [<-|[<-|[]]] i c;
    destruct i as [|[|[|i]]]; simpl; intros E; inversion E; tauto.
Qed.

Lemma motifs_score_entries_witness :
  exists score_dict log_matrix,
    get_scoring_matrix ["ACC"; "ATG"] = Ok log_matrix /\
    NoDup (Dict.keys score_dict) /\
    (forall k, In k (Dict.keys score_dict) <-> In k ["ACC"; "ATG"]) /\
    (forall motif, In motif ["ACC"; "ATG"] ->
       Dict.get score_dict motif = score_pssm_log motif log_matrix).
Proof.
  destruct (log_pipeline_returns ["ACC"; "ATG"] 3) as (_ & (sd & Hsd) & _).
  - discriminate.
  - simpl; lia.
  - intros instance [<-|[<-|[]]]; reflexivity.
  - exact over_bases_ACC_ATG.
  - lia.
  - exists sd. exact (motifs_score_entries ["ACC"; "ATG"] sd Hsd).
Defined.

(* ================================================================= *)
(** ** The totals *)

Lemma fold_left_Qcmult_pos (xs : list Qc) (a : Qc) :
  (0 < a)%Qc -> (forall x, In x xs -> (0 < x)%Qc) ->
  (0 < fold_left Qcmult xs a)%Qc.
Proof.
  revert a; induction xs as [|x xs IH]; intros a Ha Hall; simpl; [exact Ha|].
  apply IH; [|intros y Hy; apply Hall; right; exact Hy].
  apply Qcmult_pos; [exact Ha | apply Hall; left; reflexivity].
Qed.

Lemma score_pssm_unit (str : string) (matrix : Dict.t (list Qc)) (score : Qc) :
  unit_cells matrix -> score_pssm str matrix = Ok score ->
  (0 <= score /\ score <= 1)%Qc.
Proof.
  intros Hunit H. rewrite score_pssm_fold in H. bind_inv H.
  inversion H; subst score.
  apply fold_left_Qcmult_unit; [split; [exact Qcle_0_1 | apply Qcle_refl]|].
  intros x Hx. apply (mapM_In _ _ _ x Ha) in Hx.
  destruct Hx as (i & _ & Hi). bind_inv Hi. eapply Hunit; eauto.
Qed.

(** X18: for a non-empty list of motifs of positive length [L] written
    with A, T, C and G only, [get_total_motifs_percentage] returns a total
    that is strictly positive and at most 1. *)
Theorem total_motifs_percentage_bounds (motifs : list string) (L : nat) :
  motifs <> [] ->
  (forall motif, In motif motifs -> String.length motif = L) ->
  (forall motif, In motif motifs -> over_bases motif) ->
  0 < L ->
  exists total,
    get_total_motifs_percentage motifs = Ok total /\
    (0 < total /\ total <= 1)%Qc.
Proof.
  intros Hne Hlen Hbases HL.
  destruct (get_frequency_matrix_cells motifs L Hne Hlen Hbases HL)
    as (fm & Hfm & _ & Hcells).
  destruct (get_frequency_matrix_frequencies motifs L Hne Hlen Hbases HL)
    as (fm' & Hfm' & _ & Hunit & _).
  replace fm' with fm in * by congruence. clear Hfm'.
  destruct (percentage_loop_positive fm motifs) with (score_dict := @Dict.empty Qc)
    as (sd & Hsd & Hpos).
  { intros motif Hin.
    apply (score_pssm_member_positive motifs L motif fm Hin
             (Hlen motif Hin) (Hbases motif Hin) Hcells). }
  { intros x []. }
  destruct (keyed_loop_spec (fun motif => score_pssm motif fm)
              motifs Dict.empty sd Hsd (NoDup_nil _))
    as (_ & _ & _ & _ & Hvals).
  unfold get_total_motifs_percentage, get_motifs_percentage.
  rewrite Hfm; simpl. rewrite Hsd; simpl.
  eexists; split; [reflexivity|]. unfold numpy_product. split.
  - apply fold_left_Qcmult_pos; [reflexivity | exact Hpos].
  - apply fold_left_Qcmult_unit; [split; [exact Qcle_0_1 | apply Qcle_refl]|].
    intros x Hx. destruct (Hvals x Hx) as [[]|(k & _ & Hk)].
    apply (score_pssm_unit k fm x Hunit Hk).
Qed.

Lemma total_motifs_percentage_bounds_witness :
  exists total,
    get_total_motifs_percentage ["ACC"; "ATG"] = Ok total /\
    (0 < total /\ total <= 1)%Qc.
Proof.
  apply (total_motifs_percentage_bounds ["ACC"; "ATG"] 3).
  - discriminate.
  - intros instance [<-|[<-|[]]]; reflexivity.
  - exact over_bases_ACC_ATG.
  - lia.
Defined.

Lemma get_of_key {V : Type} (d : Dict.t V) (k : string) :
  In k (Dict.keys d) -> exists v, Dict.get d k = Ok v.
Proof.
  induction d as [|[k0 v0] d IH]; simpl; [intros []|].
  destruct (String.eqb_spec k k0) as [->|Hne]; [eauto|].
  intros [E|Hin]; [congruence | apply IH, Hin].
Qed.

(** X19: in exact real arithmetic, when the smoothed frequency matrix of
    the motifs has strictly positive cells, the log score that
    [get_motifs_score] reports for a motif is the negated natural logarithm
    of the product score ([score_pssm]) of this motif against the smoothed
    matrix. *)
Theorem motifs_score_is_log_of_smoothed_product
        (motifs : list string)
        (frequency_matrix pseudo_matrix : Dict.t (list Qc))
        (score_dict : Dict.t R) :
  get_frequency_matrix motifs = Ok frequency_matrix ->
  add_pseudo_counts frequency_matrix default_low_frequency = Ok pseudo_matrix ->
  (forall base i x, getitem2 pseudo_matrix base i = Ok x -> (0 < x)%Qc) ->
  get_motifs_score motifs = Ok score_dict ->
  forall motif, In motif motifs ->
    exists product,
      score_pssm motif (map_cells Qc2R pseudo_matrix) = Ok product /\
      (0 < product)%R /\
      Dict.get score_dict motif = Ok (- ln product)%R.
Proof.
  intros Hfm Hpm Hpos Hsd motif Hin.
  destruct (add_pseudo_counts_spec _ _ _ Hpm) as (L & _ & (Hkeys & _) & _).
  assert (HposR : positive_cells (map_cells Qc2R pseudo_matrix)).
  { intros base i x Hx. unfold map_cells in Hx.
    rewrite getitem2_map_rows in Hx. bind_inv Hx. inversion Hx; subst x.
    apply Qc2R_pos. eapply Hpos; eauto. }
  assert (Hlog : get_scoring_matrix motifs
                 = Ok (map_cells (fun x => (- ln x)%R)
                                 (map_cells Qc2R pseudo_matrix))).
  { unfold get_scoring_matrix. rewrite Hfm; simpl. rewrite Hpm; simpl.
    rewrite freq_to_log_matrix_positive; [reflexivity | | exact HposR].
    unfold map_cells. rewrite keys_map_values, Hkeys. apply NoDup_BASES. }
  unfold get_motifs_score in Hsd. rewrite Hlog in Hsd; simpl in Hsd.
  destruct (keyed_loop_spec _ motifs Dict.empty score_dict Hsd (NoDup_nil _))
    as (_ & Hk & Hget & _).
  destruct (get_of_key score_dict motif) as (v & Hv);
    [apply Hk; right; exact Hin|].
  rewrite (Hget motif Hin) in Hv.
  assert (Hcells : exists cells,
            path_cells motif (map_cells Qc2R pseudo_matrix) = Ok cells).
  { rewrite score_pssm_log_fold, path_cells_map_cells in Hv.
    destruct (path_cells motif (map_cells Qc2R pseudo_matrix)) as [cells|e];
      [eauto | discriminate]. }
  destruct Hcells as (cells & Hcells).
  assert (Hscore : score_pssm motif (map_cells Qc2R pseudo_matrix)
                   = Ok (fold_left Rmult cells 1%R))
    by (rewrite score_pssm_fold, Hcells; reflexivity).
  destruct (log_score_of_product _ motif _ HposR Hscore) as (Hp & Hlogscore).
  exists (fold_left Rmult cells 1%R).
  split; [exact Hscore|]. split; [exact Hp|].
  rewrite (Hget motif Hin). exact Hlogscore.
Qed.

Lemma motifs_score_is_log_of_smoothed_product_witness :
  exists (pseudo_matrix : Dict.t (list Qc)) (score_dict : Dict.t R),
    forall motif, In motif ["ACC"; "ATG"] ->
      exists product,
        score_pssm motif (map_cells Qc2R pseudo_matrix) = Ok product /\
        (0 < product)%R /\
        Dict.get score_dict motif = Ok (- ln product)%R.
Proof.
  assert (Hlen : forall instance,
             In instance ["ACC"; "ATG"] -> String.length instance = 3)
    by (intros instance [<-|[<-|[]]]; reflexivity).
  assert (Hne : ["ACC"; "ATG"] <> []) by discriminate.
  assert (Hnine : List.length ["ACC"; "ATG"] <= 9) by (simpl; lia).
  assert (HL : 0 < 3) by lia.
  destruct (smoothed_frequencies_positive ["ACC"; "ATG"] 3 Hne Hnine Hlen
              over_bases_ACC_ATG HL) as (fm & pm & Hfm & Hpm & _ & Hpos).
  destruct (log_pipeline_returns ["ACC"; "ATG"] 3 Hne Hnine Hlen
              over_bases_ACC_ATG HL) as (_ & (sd & Hsd) & _).
  exists pm, sd.
  exact (motifs_score_is_log_of_smoothed_product
           ["ACC"; "ATG"] fm pm sd Hfm Hpm Hpos Hsd).
Defined.

(* ================================================================= *)
(** ** The percentage report in binary64: underflow *)

Lemma over_bases_str_repeat (c : ascii) (n : nat) :
  In (String c EmptyString) BASES ->
  over_bases (str_repeat (String c EmptyString) n).
Proof.
  intros Hc; induction n as [|n IH]; intros i c'; simpl.
  - discriminate.
  - destruct i as [|i]; [intros E; inversion E; subst; exact Hc | apply IH].
Qed.

Lemma length_str_repeat (c : ascii) (n : nat) :
  String.length (str_repeat (String c EmptyString) n) = n.
Proof. induction n as [|n IH]; simpl; [reflexivity | f_equal; exact IH]. Qed.

(** C10 (as stated, refuted): the motifs ['A' * 1075, 'T' * 1075] are a
    non-empty list of equal-length motifs over A, T, C and G; each has
    frequency 0.5 at every position, and in binary64 the product of 1075
    factors 0.5 underflows: both values of the returned mapping are 0.0,
    which is not strictly positive. *)
Lemma motifs_percentage_underflows_to_zero :
  underflow_motifs <> [] /\
  (forall motif, In motif underflow_motifs -> String.length motif = 1075) /\
  (forall motif, In motif underflow_motifs -> over_bases motif) /\
  Binary64.get_motifs_percentage underflow_motifs
  = Ok [(str_repeat "A" 1075, Binary64.float_of_int 0);
        (str_repeat "T" 1075, Binary64.float_of_int 0)] /\
  PrimFloat.ltb (Binary64.float_of_int 0) (Binary64.float_of_int 0) = false.
Proof.
  split; [discriminate|]. split; [|split; [|split]].
  - intros motif [<-|[<-|[]]]; apply length_str_repeat.
  - intros motif [<-|[<-|[]]]; apply over_bases_str_repeat; simpl; tauto.
  - vm_compute. reflexivity.
  - vm_compute. reflexivity.
Qed.
